(** * Scaly: layered data access over async generators

    A verification development for [index.js] of the [scaly] package.
    The module exports one function, which takes an array of layer
    objects and returns an object [DB] with one async method per
    operation name.  A call walks the layers in order, drives each
    layer's async generator to its first [yield] or [return], and either
    resolves, fails, moves on, or remembers the generator so that the
    value resolved by a deeper layer can be passed back to it.

    Modelling choices.
    - JavaScript values are the type [value]; objects that belong to the
      layers (results such as [[['pdb'], 0]], error objects, caches) live
      in the layers' own store [World] and are seen by the engine as
      opaque references [VRef], which it passes around unchanged.
    - An async generator is a resumable computation [gen] over [World].
      [gen.next(x)] runs it to its next [yield], [return] or [throw]; the
      [await]s inside a generator body are not visible to the engine and
      one resumption is one step on [World].  The promise that
      [gen.next(x)] returns is therefore modelled settled.  For a first
      drive this loses nothing: the engine awaits it before it does
      anything else.  In the fan-out of lines 36-38 it makes the
      resumptions run one after the other, in the order of the pending
      list: handlers that await while they are resumed, whose effects
      would interleave and whose rejections would come in another order,
      have no counterpart here.  The statements about the fan-out do
      not say which of several rejections comes first, and say so where
      they rest on the order of the resumptions.
    - Every interaction of the engine with a layer is recorded in a log
      of [event]s carried next to [World]; the log is ghost state, the
      engine never reads it.
    - A method of [DB] is an async function: its promise is fulfilled
      with the value the body returns ([Normal]) or rejected with what
      the body throws ([Abrupt]).

    Assumed of the layers: a step of a generator always completes (a
    promise that never settles has no counterpart here); every call of a
    handler gives a generator object of its own, as [async function*]
    does; [layer.toString()] is pure and returns a string.

    The module [TestJs] holds the two layers [test.js] composes, a
    persistent database and a memory cache in front of it, with their
    store; the last part of the file is about the object [makeDB]
    builds from them. *)

From stdpp Require Import base list strings gmap pretty sorting.
From Stdlib Require Import ZArith.

(** ** JavaScript values *)

(** A symbol is known by its description; the code looked at never
    compares two symbols. *)
Inductive value : Type :=
  | VUndefined
  | VNull
  | VBool (b : bool)
  | VNum (n : Z)
  | VStr (s : string)
  | VRef (a : nat)
  | VSym (description : string).

#[global] Instance value_eq_dec : EqDecision value.
Proof. solve_decision. Defined.

(** [x === undefined] *)
Definition is_undefined (v : value) : bool :=
  match v with VUndefined => true | _ => false end.

(** ToBoolean, as used by [!layer[op]] *)
Definition truthy (v : value) : bool :=
  match v with
  | VUndefined | VNull => false
  | VBool b => b
  | VNum n => negb (n =? 0)%Z
  | VStr s => negb (bool_decide (s = ""))
  | VRef _ | VSym _ => true
  end.

(** What can be thrown.  [TypeError] and [Error] are the two error
    objects the source creates with [new]; [RuntimeTypeError] is the
    TypeError the runtime itself raises when the engine calls something
    that is not a function or reads [next] off [undefined] (its message
    is implementation defined); [Thrown v] is a value thrown by layer
    code, which the engine never inspects. *)
Inductive exn : Type :=
  | TypeError (msg : string)
  | Error (msg : string)
  | RuntimeTypeError
  | Thrown (v : value).

Inductive completion (A : Type) : Type :=
  | Normal (a : A)
  | Abrupt (e : exn).
Arguments Normal {A} a.
Arguments Abrupt {A} e.

(** A promise, settled. *)
Inductive promise (A : Type) : Type :=
  | Fulfilled (a : A)
  | Rejected (e : exn).
Arguments Fulfilled {A} a.
Arguments Rejected {A} e.

(** [Promise.all(ps)] over settled promises: the first rejection in the
    order of the array wins, otherwise the array of the values. *)
Fixpoint Promise_all {A : Type} (ps : list (promise A)) : promise (list A) :=
  match ps with
  | [] => Fulfilled []
  | Rejected e :: _ => Rejected e
  | Fulfilled a :: ps' =>
      match Promise_all ps' with
      | Fulfilled l => Fulfilled (a :: l)
      | Rejected e => Rejected e
      end
  end.

(** The IteratorResult object [{value, done}]. *)
Record iter_result : Type := IterResult { ir_value : value; ir_done : bool }.

(** ** The log of interactions with the layers *)

(** Where the engine calls [gen.next]: [Drive] is [await gen.next()] in
    the walk over the layers, [Resume] is [gen.next(result)] in the
    fan-out over [pendingGenerators]. *)
Inductive site : Type := Drive | Resume.

(** What a generator did in one step, without its continuation. *)
Inductive obs : Type :=
  | OYield (v : value)
  | OReturn (v : value)
  | OThrow (e : value).

(** [EvCall i args thrown]: [layer[op](...args)] was called on the layer
    at position [i] of [layers]; [thrown] is what the call threw, if it
    did.  [EvNext s i x o]: [gen.next(x)] was called at site [s] on the
    generator obtained from the layer at position [i], and the generator
    did [o]. *)
Inductive event : Type :=
  | EvCall (i : nat) (args : list value) (thrown : option value)
  | EvNext (s : site) (i : nat) (x : value) (o : obs).

#[global] Instance site_eq_dec : EqDecision site.
Proof. solve_decision. Defined.
#[global] Instance obs_eq_dec : EqDecision obs.
Proof. solve_decision. Defined.
#[global] Instance event_eq_dec : EqDecision event.
Proof. solve_decision. Defined.

(** Positions whose handler was instantiated, in order. *)
Definition calls (t : list event) : list nat :=
  omap (fun ev => match ev with EvCall i _ _ => Some i | _ => None end) t.

(** First drives, in order: position and what the generator did. *)
Definition drives (t : list event) : list (nat * obs) :=
  omap (fun ev => match ev with EvNext Drive i _ o => Some (i, o) | _ => None end) t.

(** Resumptions, in order: position, value passed in, what the generator did. *)
Definition resumes (t : list event) : list (nat * value * obs) :=
  omap (fun ev => match ev with EvNext Resume i x o => Some (i, x, o) | _ => None end) t.

(** Positions whose generator suspended at its first drive with no
    payload, that is, asked for the value of a deeper layer. *)
Definition awaiting (t : list event) : list nat :=
  omap (fun ev => match ev with
                  | EvNext Drive i _ (OYield VUndefined) => Some i
                  | _ => None end) t.

(** What a resumption threw, if it did. *)
Definition raised (r : nat * value * obs) : option value :=
  match r.2 with OThrow e => Some e | _ => None end.

(** [Array.prototype.join] on an array of strings *)
Fixpoint join (sep : string) (l : list string) : string :=
  match l with
  | [] => ""
  | [s] => s
  | s :: l' => s +:+ sep +:+ join sep l'
  end.

(** ** Sets in insertion order *)

(** [Set.prototype.add]: a value already in the set keeps its place. *)
Definition Set_add (s : list string) (k : string) : list string :=
  if bool_decide (k ∈ s) then s else s ++ [k].

(** [new Set(iterable)] *)
Definition Set_new (l : list string) : list string := fold_left Set_add l [].

(** Union with first occurrences kept, written after the specification:
    the first name stays, later copies of it go. *)
Fixpoint first_occurrences (l : list string) : list string :=
  match l with
  | [] => []
  | k :: l' => k :: filter (fun k' => k' ≠ k) (first_occurrences l')
  end.

(** ** Ordinary objects *)

(** The own properties of an object made by [{}] and filled by
    assignments [o[k] = a] with string keys, in the order in which they
    were created. *)
Definition object (A : Type) : Type := list (string * A).

(** The own property [k] of [o], if there is one. *)
Fixpoint own_property {A} (o : object A) (k : string) : option A :=
  match o with
  | [] => None
  | (k', a) :: o' => if bool_decide (k' = k) then Some a else own_property o' k
  end.

(** [o[k] = a] on such an object.  The key [__proto__] is the accessor
    that [o] inherits from [Object.prototype]: the assignment runs its
    setter, which replaces the prototype of [o] and creates no own
    property.  Any other key is written where it is, or created behind
    the properties there are.  (What [o] inherits is not kept here; once
    the prototype has been replaced by a function, later assignments of
    the names that function has go other ways, and the statements about
    such an object below leave the key [__proto__] out.) *)
Definition Object_set {A} (o : object A) (k : string) (a : A) : object A :=
  if bool_decide (k = "__proto__") then o
  else if bool_decide (k ∈ o.*1) then
    (fun p => if bool_decide (p.1 = k) then (k, a) else p) <$> o
  else o ++ [(k, a)].

Definition digit (c : Ascii.ascii) : option N :=
  let n := Ascii.N_of_ascii c in
  if (48 <=? n)%N && (n <=? 57)%N then Some (n - 48)%N else None.

Fixpoint digits (acc : N) (s : string) : option N :=
  match s with
  | EmptyString => Some acc
  | String c s' =>
      match digit c with
      | Some d => digits (10 * acc + d) s'
      | None => None
      end
  end.

(** An array index: a key that is the canonical decimal form of an
    integer from [0] to [2^32 - 2]. *)
Definition array_index (k : string) : option N :=
  match digits 0 k with
  | Some n => if bool_decide (pretty n = k) && (n <? 2 ^ 32 - 1)%N then Some n else None
  | None => None
  end.

Definition index_le (k1 k2 : string) : Prop :=
  (default 0 (array_index k1) ≤ default 0 (array_index k2))%N.

#[global] Instance index_le_dec k1 k2 : Decision (index_le k1 k2).
Proof. unfold index_le. apply _. Defined.

Definition index_lt (k1 k2 : string) : Prop :=
  (default 0 (array_index k1) < default 0 (array_index k2))%N.

(** [Object.keys(o)], the order of the own property keys of an ordinary
    object: the array indices in ascending order, then the other keys in
    the order in which they were created. *)
Definition OwnPropertyKeys {A} (o : object A) : list string :=
  merge_sort index_le (filter (fun k => is_Some (array_index k)) o.*1)
  ++ filter (fun k => array_index k = None) o.*1.

(** One step of a generator body: it yields and stays suspended (the
    continuation [k] is the generator from that point on), returns, or
    throws. *)
Inductive step (G : Type) : Type :=
  | Yield (v : value) (k : G)
  | Return (v : value)
  | Throw (e : value).
Arguments Yield {G} v k.
Arguments Return {G} v.
Arguments Throw {G} e.

Section Engine.

(** The store of the layers: cache contents, database rows, the objects
    they hand out.  The engine holds no reference into it. *)
Context {World : Type}.

(** ** Async generators *)

#[warnings="-register-all"]
Inductive gen : Type :=
  | Gen (resume : value → World → step gen * World).

Definition resume (g : gen) : value → World → step gen * World :=
  match g with Gen r => r end.

(** A generator that has completed: [next] gives [{value: undefined, done: true}]. *)
Definition gen_completed : gen := Gen (fun _ w => (Return VUndefined, w)).

Definition observe (st : step gen) : obs :=
  match st with
  | Yield v _ => OYield v
  | Return v => OReturn v
  | Throw e => OThrow e
  end.

(** ** Layers *)

(** What a call of a layer's property gives back: a generator object
    (every call of an [async function*] gives a generator of its own), or
    some other value, which has no [next] method. *)
Inductive callres : Type :=
  | CGen (g : gen)
  | CVal (v : value).

(** A property of a layer: a value that is not callable, or a function.
    A function may read and write [World] and may throw. *)
Inductive prop : Type :=
  | PData (v : value)
  | PFn (f : list value → World → (callres + value) * World).

(** [async *op(...args) { body }]: the call only creates the generator. *)
Definition async_generator (body : list value → gen) : prop :=
  PFn (fun args w => (inl (CGen (body args)), w)).

(** A layer object.  [layer_own] are its own enumerable string-keyed
    properties in the order of [Object.keys]; [layer_inherited] are the
    properties reached through [layer[op]] only (not enumerable, or on the
    prototype chain); [layer_display] is what [layer.toString()] returns. *)
Record layer : Type := Layer {
  layer_own : list (string * prop);
  layer_inherited : list (string * prop);
  layer_display : string
}.

Fixpoint assoc (k : string) (ps : list (string * prop)) : option prop :=
  match ps with
  | [] => None
  | (k', p) :: ps' => if bool_decide (k' = k) then Some p else assoc k ps'
  end.

(** [Object.keys(layer)] *)
Definition Object_keys (l : layer) : list string := (layer_own l).*1.

(** [layer[op]] *)
Definition layer_get (l : layer) (op : string) : prop :=
  match assoc op (layer_own l) with
  | Some p => p
  | None =>
      match assoc op (layer_inherited l) with
      | Some p => p
      | None => PData VUndefined
      end
  end.

Definition prop_truthy (p : prop) : bool :=
  match p with
  | PData v => truthy v
  | PFn _ => true
  end.

(** The test of line 19, [layer[op]] is truthy: the layer is attempted. *)
Definition implements (op : string) (l : layer) : bool :=
  prop_truthy (layer_get l op).

(** ** The monad of the engine: layers' store, log, exceptions *)

Definition M (A : Type) : Type :=
  World * list event → completion A * (World * list event).

Definition ret {A} (a : A) : M A := fun s => (Normal a, s).

Definition throw {A} (e : exn) : M A := fun s => (Abrupt e, s).

Definition bind {A B} (m : M A) (k : A → M B) : M B :=
  fun s =>
    match m s with
    | (Normal a, s') => k a s'
    | (Abrupt e, s') => (Abrupt e, s')
    end.

Notation "'let*' x ':=' m 'in' k" := (bind m (fun x => k))
  (at level 10, x pattern, m at level 100, k at level 200).

(** [await p] *)
Definition await {A} (p : promise A) : M A :=
  match p with
  | Fulfilled a => ret a
  | Rejected e => throw e
  end.

(** [xs.map(f)] for an [f] with effects *)
Fixpoint mapM {A B} (f : A → M B) (xs : list A) : M (list B) :=
  match xs with
  | [] => ret []
  | x :: xs' => let* y := f x in let* ys := mapM f xs' in ret (y :: ys)
  end.

(** [layer[op](...args)] for the layer at position [i]. *)
Definition invoke (i : nat) (l : layer) (op : string) (args : list value) : M callres :=
  match layer_get l op with
  | PData _ => throw RuntimeTypeError
  | PFn f =>
      fun '(w, t) =>
        match f args w with
        | (inl r, w') => (Normal r, (w', t ++ [EvCall i args None]))
        | (inr e, w') => (Abrupt (Thrown e), (w', t ++ [EvCall i args (Some e)]))
        end
  end.

(** [gen.next(x)] on a generator object: the generator runs one step and
    the call gives back a promise for the IteratorResult, rejected when
    the generator threw.  The second component is the generator object
    after the step. *)
Definition gen_next (s : site) (i : nat) (g : gen) (x : value)
  : M (promise iter_result * gen) :=
  fun '(w, t) =>
    let '(st, w') := resume g x w in
    let r := match st with
             | Yield v k => (Fulfilled (IterResult v false), k)
             | Return v => (Fulfilled (IterResult v true), gen_completed)
             | Throw e => (Rejected (Thrown e), gen_completed)
             end in
    (Normal r, (w', t ++ [EvNext s i x (observe st)])).

(** [gen.next(x)] on whatever [layer[op](...args)] returned: a value that
    is not a generator has no [next] to call. *)
Definition call_next (s : site) (i : nat) (c : callres) (x : value)
  : M (promise iter_result * gen) :=
  match c with
  | CGen g => gen_next s i g x
  | CVal _ => throw RuntimeTypeError
  end.

(** ** The engine *)

(** The message of the error of line 72. *)
Definition unhandled_message (op : string) (attemptedLayers : list string) : string :=
  "operation was not handled by any configured layers: " +:+ op
  +:+ " (attempted layers: " +:+ join ", " attemptedLayers +:+ ")".

(** Lines 36-38: [await Promise.all(pendingGenerators.map(gen => gen.next(result)))].
    [map] calls [next] on every pending generator; only then are the
    promises joined. *)
Definition propagate (pendingGenerators : list (nat * gen)) (result : value)
  : M (list iter_result) :=
  let* ps := mapM (fun '(j, gen) => let* (p, _) := gen_next Resume j gen result in ret p)
                  pendingGenerators in
  await (Promise_all ps).

(** Lines 17-74, the body of [DB[op]] from the loop on: [i] is the
    position in [layers] of the head of the list still to walk. *)
Fixpoint walk (op : string) (args : list value) (i : nat) (layers : list layer)
    (attemptedLayers : list string) (pendingGenerators : list (nat * gen))
  : M (bool * value) :=
  match layers with
  | [] => throw (Error (unhandled_message op attemptedLayers))
  | layer :: rest =>
      if negb (implements op layer) then
        walk op args (S i) rest attemptedLayers pendingGenerators
      else
        let attemptedLayers := attemptedLayers ++ [layer_display layer] in
        let* c := invoke i layer op args in
        let* (p, gen) := call_next Drive i c VUndefined in
        let* r := await p in
        let result := ir_value r in
        if ir_done r then
          if negb (is_undefined result) then
            let* _ := propagate pendingGenerators result in
            ret (true, result)
          else
            walk op args (S i) rest attemptedLayers pendingGenerators
        else if is_undefined result then
          walk op args (S i) rest attemptedLayers (pendingGenerators ++ [(i, gen)])
        else
          ret (false, result)
  end.

(** [allOperations], lines 6-8 *)
Definition allOperations (layers : list layer) : list string :=
  Set_new (fold_left (fun acc layer => acc ++ Object_keys layer) layers []).

(** One method of the composed object, lines 13-75. *)
Definition operation (layers : list layer) (op : string) (args : list value)
  : M (bool * value) :=
  walk op args 0 layers [] [].

(** Lines 10-12 and 78: the object [DB], filled by [DB[op] = ...] for
    each operation in the order of [allOperations]. *)
Definition DB (layers : list layer) : object (list value → M (bool * value)) :=
  fold_left (fun db op => Object_set db op (operation layers op)) (allOperations layers) [].

(** An argument of the exported function: an array of layers, one layer
    object, or anything else. *)
Inductive argument : Type :=
  | AArray (ls : list layer)
  | AObject (l : layer)
  | AValue (v : value).

(** [Array.isArray] *)
Definition Array_isArray (a : argument) : bool :=
  match a with AArray _ => true | _ => false end.

(** The elements of an array. *)
Definition elements (a : argument) : list layer :=
  match a with AArray ls => ls | _ => [] end.

(** [module.exports], lines 1-4 and 78.  The function is called with any
    number of arguments; [layers] is the first one, [undefined] when
    there is none, and the others are not looked at. *)
Definition scaly (arguments : list argument)
  : completion (object (list value → M (bool * value))) :=
  let layers := default (AValue VUndefined) (head arguments) in
  if negb (Array_isArray layers) then
    Abrupt (TypeError "layers must be an array")
  else
    Normal (DB (elements layers)).

(** A call from a store [w], with an empty log. *)
Definition run {A} (m : M A) (w : World) : completion A * (World * list event) :=
  m (w, []).

(** ** The layers of an operation *)

(** The layers from position [i] on, each with its position. *)
Definition positions (i : nat) (layers : list layer) : list (nat * layer) :=
  zip (seq i (length layers)) layers.

(** The sublist of the operation: the layers that pass the test of
    line 19, in the order of [layers], each with its position. *)
Definition implementing (op : string) (i : nat) (layers : list layer)
  : list (nat * layer) :=
  filter (fun p => implements op p.2) (positions i layers).

(** A generator that at its first drive returned nothing or suspended
    with no payload. *)
Definition declined (o : obs) : bool :=
  match o with
  | OReturn VUndefined | OYield VUndefined => true
  | _ => false
  end.

(** ** The fan-out, as a function of the store *)

(** What the pending generators do when each is resumed with [v], in the
    order of the list, and the store afterwards. *)
Fixpoint fanout (pending : list (nat * gen)) (v : value) (w : World)
  : list obs * World :=
  match pending with
  | [] => ([], w)
  | (_, g) :: rest =>
      let '(st, w1) := resume g v w in
      let '(os, w2) := fanout rest v w1 in
      (observe st :: os, w2)
  end.

Definition resume_events (ks : list nat) (v : value) (os : list obs) : list event :=
  zip_with (fun k o => EvNext Resume k v o) ks os.

Definition thrown (o : obs) : option value :=
  match o with OThrow e => Some e | _ => None end.

(** The exception of the first generator that threw. *)
Definition first_thrown (os : list obs) : option value := head (omap thrown os).

Definition resolved (v : value) (os : list obs) : completion (bool * value) :=
  match first_thrown os with
  | Some e => Abrupt (Thrown e)
  | None => Normal (true, v)
  end.

(** ** The walk as a relation *)

Section Walk.

Variables (op : string) (args : list value).

(** [Walk i layers attempted pending w r w' dt]: from the store [w] the
    loop over [layers] ends with [r] in the store [w'], and [dt] is what
    it adds to the log.  One rule per path through the loop body. *)
Inductive Walk : nat → list layer → list string → list (nat * gen) →
    World → completion (bool * value) → World → list event → Prop :=
  | Walk_exhausted i att pend w :
      Walk i [] att pend w (Abrupt (Error (unhandled_message op att))) w []
  | Walk_skip i l rest att pend w r w' dt :
      implements op l = false →
      Walk (S i) rest att pend w r w' dt →
      Walk i (l :: rest) att pend w r w' dt
  | Walk_not_function i l rest att pend w v :
      implements op l = true →
      layer_get l op = PData v →
      Walk i (l :: rest) att pend w (Abrupt RuntimeTypeError) w []
  | Walk_call_throws i l rest att pend w f e w1 :
      layer_get l op = PFn f →
      f args w = (inr e, w1) →
      Walk i (l :: rest) att pend w (Abrupt (Thrown e)) w1 [EvCall i args (Some e)]
  | Walk_not_generator i l rest att pend w f v w1 :
      layer_get l op = PFn f →
      f args w = (inl (CVal v), w1) →
      Walk i (l :: rest) att pend w (Abrupt RuntimeTypeError) w1 [EvCall i args None]
  | Walk_throws i l rest att pend w f g w1 e w2 :
      layer_get l op = PFn f →
      f args w = (inl (CGen g), w1) →
      resume g VUndefined w1 = (Throw e, w2) →
      Walk i (l :: rest) att pend w (Abrupt (Thrown e)) w2
        [EvCall i args None; EvNext Drive i VUndefined (OThrow e)]
  | Walk_resolves i l rest att pend w f g w1 v w2 os w3 :
      layer_get l op = PFn f →
      f args w = (inl (CGen g), w1) →
      resume g VUndefined w1 = (Return v, w2) →
      v ≠ VUndefined →
      fanout pend v w2 = (os, w3) →
      Walk i (l :: rest) att pend w (resolved v os) w3
        (EvCall i args None :: EvNext Drive i VUndefined (OReturn v)
           :: resume_events pend.*1 v os)
  | Walk_opts_out i l rest att pend w f g w1 w2 r w' dt :
      layer_get l op = PFn f →
      f args w = (inl (CGen g), w1) →
      resume g VUndefined w1 = (Return VUndefined, w2) →
      Walk (S i) rest (att ++ [layer_display l]) pend w2 r w' dt →
      Walk i (l :: rest) att pend w r w'
        (EvCall i args None :: EvNext Drive i VUndefined (OReturn VUndefined) :: dt)
  | Walk_awaits i l rest att pend w f g w1 k w2 r w' dt :
      layer_get l op = PFn f →
      f args w = (inl (CGen g), w1) →
      resume g VUndefined w1 = (Yield VUndefined k, w2) →
      Walk (S i) rest (att ++ [layer_display l]) (pend ++ [(i, k)]) w2 r w' dt →
      Walk i (l :: rest) att pend w r w'
        (EvCall i args None :: EvNext Drive i VUndefined (OYield VUndefined) :: dt)
  | Walk_fails i l rest att pend w f g w1 v k w2 :
      layer_get l op = PFn f →
      f args w = (inl (CGen g), w1) →
      resume g VUndefined w1 = (Yield v k, w2) →
      v ≠ VUndefined →
      Walk i (l :: rest) att pend w (Normal (false, v)) w2
        [EvCall i args None; EvNext Drive i VUndefined (OYield v)].

End Walk.

End Engine.

Notation "'let*' x ':=' m 'in' k" := (bind m (fun x => k))
  (at level 10, x pattern, m at level 100, k at level 200).

(** ** Layers to run the engine on

    Small layers after the ones of [test.js], over a store that records,
    in order, the values the caches were handed. *)

Module Example.

Definition store := list value.

Definition method (name : string) (body : list value → @gen store)
  : list (string * @prop store) :=
  [(name, async_generator body)].

(** [async *get() { const v = yield; cache.push(v) }] *)
Definition cache : @layer store :=
  Layer (method "get" (fun _ =>
           Gen (fun _ w => (Yield VUndefined
             (Gen (fun v w => (Return VUndefined, w ++ [v]))), w))))
        [] "cache".

(** [async *get() { return 'qix' }] *)
Definition db : @layer store :=
  Layer (method "get" (fun _ => Gen (fun _ w => (Return (VStr "qix"), w))))
        [] "db".

(** [async *get() { return 'qux' }] *)
Definition replica : @layer store :=
  Layer (method "get" (fun _ => Gen (fun _ w => (Return (VStr "qux"), w))))
        [] "replica".

(** [async *get() { yield 'invalid' }] *)
Definition strict : @layer store :=
  Layer (method "get" (fun _ =>
           Gen (fun _ w => (Yield (VStr "invalid") gen_completed, w))))
        [] "strict".

(** [async *get() {}] *)
Definition quiet : @layer store :=
  Layer (method "get" (fun _ => Gen (fun _ w => (Return VUndefined, w))))
        [] "quiet".

(** [async *put() { return true }]: a layer without [get]. *)
Definition writer : @layer store :=
  Layer (method "put" (fun _ => Gen (fun _ w => (Return (VBool true), w))))
        [] "writer".

(** [async *get() { yield; throw e }] *)
Definition broken (e : string) : @layer store :=
  Layer (method "get" (fun _ =>
           Gen (fun _ w => (Yield VUndefined
             (Gen (fun _ w => (Throw (VStr e), w))), w))))
        [] "broken".

(** [async *get() { throw e }] *)
Definition crashing (e : string) : @layer store :=
  Layer (method "get" (fun _ => Gen (fun _ w => (Throw (VStr e), w))))
        [] "crashing".

(** The [createSession] of [test.js], on a heap of result objects
    [[trace, token]]: the persistent layer allocates the result and
    returns a reference to it; the memory cache asks for the result and
    pushes its own name on the [trace] array of that same object. *)
Definition heap := list (list string * value).

Definition pdb : @layer heap :=
  Layer [("createSession", async_generator (fun _ =>
           Gen (fun _ h =>
             (Return (VRef (length h)), h ++ [(["pdb"], VNum (Z.of_nat (length h)))]))))]
        [] "pdb".

Definition mc : @layer heap :=
  Layer [("createSession", async_generator (fun _ =>
           Gen (fun _ h => (Yield VUndefined
             (Gen (fun res h =>
                match res with
                | VRef a => (Return VUndefined, alter (fun o => (o.1 ++ ["mc"], o.2)) a h)
                | _ => (Throw (VStr "not iterable"), h)
                end)), h))))]
        [] "mc".

(** [async *1() { return 1 }]: a layer whose only key is an array index. *)
Definition numbered : @layer store :=
  Layer (method "1" (fun _ => Gen (fun _ w => (Return (VNum 1), w))))
        [] "numbered".

(** [{get: null}]: the key is there, the value is falsy. *)
Definition stub : @layer store := Layer [("get", PData VNull)] [] "stub".

(** [{get: 'v1'}]: a truthy value that is not a function. *)
Definition stale : @layer store := Layer [("get", PData (VStr "v1"))] [] "stale".

(** A call of [get] with no argument, from an empty store. *)
Definition get (layers : list (@layer store)) :=
  run (operation layers "get" []) [].

End Example.

(** ** The layers of [test.js]

    [makePersistentDB] and [makeMemoryCache], the two layers the tests
    compose with [scaly].  Their store holds the object [db] of the
    persistent layer, the [Map] of the memory cache, and the arrays the
    handlers build; a result such as [[['pdb'], 0]] is a reference to an
    array on that heap.

    The layers are modelled on arguments that are no objects (the tests
    pass numbers and strings of ASCII characters): [undefined], [null],
    booleans, numbers, strings and symbols.  Numbers are integers that
    a double holds exactly, between [-2^53] and [2^53], and [n++] and
    [--n] are written with what a double does at these two ends.  The
    properties of [Object.prototype] inherited by the two layer objects
    are left out of the layers: none of their names is an operation of
    the composed object, and [toString] is a key of both layers. *)

Module TestJs.

(** Objects on the heap: an array, or a TypeError raised by the runtime
    inside a handler. *)
Inductive cell : Type :=
  | CArray (items : list value)
  | CTypeError.

(** [{uid, username}] *)
Record user : Type := User { u_uid : value; u_username : value }.

(** The object [db] of [makePersistentDB]; a session [{uid}] is kept as
    its [uid]. *)
Record db_state : Type := Db {
  userCount : Z;
  sessionCount : Z;
  users : gmap string user;
  sessions : gmap string value
}.

(** [{v, ttl}] *)
Record record : Type := Rec { r_v : value; r_ttl : Z }.

Record memory : Type := Memory {
  mem_db : db_state;
  mem_cache : gmap string record;
  mem_heap : list cell
}.

Definition set_db (f : db_state → db_state) (m : memory) : memory :=
  Memory (f (mem_db m)) (mem_cache m) (mem_heap m).
Definition set_cache (f : gmap string record → gmap string record) (m : memory)
  : memory :=
  Memory (mem_db m) (f (mem_cache m)) (mem_heap m).
Definition set_heap (f : list cell → list cell) (m : memory) : memory :=
  Memory (mem_db m) (mem_cache m) (f (mem_heap m)).

Definition set_userCount (n : Z) (d : db_state) : db_state :=
  Db n (sessionCount d) (users d) (sessions d).
Definition set_sessionCount (n : Z) (d : db_state) : db_state :=
  Db (userCount d) n (users d) (sessions d).
Definition set_users (f : gmap string user → gmap string user) (d : db_state)
  : db_state :=
  Db (userCount d) (sessionCount d) (f (users d)) (sessions d).
Definition set_sessions (f : gmap string value → gmap string value) (d : db_state)
  : db_state :=
  Db (userCount d) (sessionCount d) (users d) (f (sessions d)).

(** What a fresh pair of layers starts from. *)
Definition fresh : memory := Memory (Db 0 0 ∅ ∅) ∅ [].

(** *** Numbers *)

Definition two53 : Z := 2 ^ 53.

(** [n + 1] on a double: [2^53 + 1] rounds back to [2^53]. *)
Definition incr (n : Z) : Z := if (n <? two53)%Z then (n + 1)%Z else n.

(** [n - 1] on a double: [-2^53 - 1] rounds back to [-2^53]. *)
Definition decr (n : Z) : Z := if (- two53 <? n)%Z then (n - 1)%Z else n.

(** *** Strings and property keys *)

(** [String(v)].  On every value but a symbol this is also the string
    ToString converts to, in a template literal and as a property key; a
    symbol has no such conversion, see [template], [in_object] and
    [property_of].  A reference prints as a plain object does. *)
Definition ToString (v : value) : string :=
  match v with
  | VUndefined => "undefined"
  | VNull => "null"
  | VBool true => "true"
  | VBool false => "false"
  | VNum n => pretty n
  | VStr s => s
  | VRef _ => "[object Object]"
  | VSym d => "Symbol(" +:+ d +:+ ")"
  end.

(** The names every plain object inherits from [Object.prototype]. *)
Definition Object_prototype : list string :=
  ["constructor"; "__defineGetter__"; "__defineSetter__"; "hasOwnProperty";
   "__lookupGetter__"; "__lookupSetter__"; "isPrototypeOf";
   "propertyIsEnumerable"; "toString"; "valueOf"; "__proto__"; "toLocaleString"].

(** [k in o], for a plain object [o] with the own properties [o]. *)
Definition has_property {A} (o : gmap string A) (k : string) : bool :=
  bool_decide (is_Some (o !! k)) || bool_decide (k ∈ Object_prototype).

(** [o[k]]: an own property, something inherited (a function, or
    [Object.prototype] itself: truthy, and without a [uid] or a
    [username]), or [undefined]. *)
Inductive got (A : Type) : Type :=
  | Own (a : A)
  | Inherited
  | Missing.
Arguments Own {A} a.
Arguments Inherited {A}.
Arguments Missing {A}.

Definition get_property {A} (o : gmap string A) (k : string) : got A :=
  match o !! k with
  | Some a => Own a
  | None => if bool_decide (k ∈ Object_prototype) then Inherited else Missing
  end.

(** [k in o] for any key [k]: a symbol is a key of its own, which
    neither the own properties nor [Object.prototype] have. *)
Definition in_object {A} (o : gmap string A) (k : value) : bool :=
  match k with
  | VSym _ => false
  | _ => has_property o (ToString k)
  end.

(** [o[k]] for any key [k]. *)
Definition property_of {A} (o : gmap string A) (k : value) : got A :=
  match k with
  | VSym _ => Missing
  | _ => get_property o (ToString k)
  end.

(** [delete o[k]] for any key [k]. *)
Definition delete_property {A} (o : gmap string A) (k : value) : gmap string A :=
  match k with
  | VSym _ => o
  | _ => delete (ToString k) o
  end.

(** [typeof v === 'string'] *)
Definition is_string (v : value) : bool :=
  match v with VStr _ => true | _ => false end.

(** The first parameter of a handler. *)
Definition param (args : list value) : value := default VUndefined (head args).

(** *** Arrays *)

Definition alloc (c : cell) (m : memory) : value * memory :=
  (VRef (length (mem_heap m)), set_heap (fun h => h ++ [c]) m).

(** [[[tag], x]] *)
Definition tagged (tag : string) (x : value) (m : memory) : value * memory :=
  let '(trace, m) := alloc (CArray [VStr tag]) m in
  alloc (CArray [trace; x]) m.

(** [throw] of a TypeError made by the runtime. *)
Definition throw_TypeError (m : memory) : step (@gen memory) * memory :=
  let '(e, m) := alloc CTypeError m in (Throw e, m).

(** [const [a, b] = res]: an array gives its first two items, a string
    its first two characters, anything else is not iterable. *)
Definition destructure (res : value) (m : memory) : option (value * value) :=
  match res with
  | VRef a =>
      match mem_heap m !! a with
      | Some (CArray items) =>
          Some (default VUndefined (items !! 0), default VUndefined (items !! 1))
      | _ => None
      end
  | VStr EmptyString => Some (VUndefined, VUndefined)
  | VStr (String c EmptyString) => Some (VStr (String c ""), VUndefined)
  | VStr (String c (String c' _)) => Some (VStr (String c ""), VStr (String c' ""))
  | _ => None
  end.

(** [trace.push(x)]: works on an array, and is a TypeError on the other
    values. *)
Definition push (trace x : value) (m : memory) : option memory :=
  match trace with
  | VRef a =>
      match mem_heap m !! a with
      | Some (CArray items) =>
          Some (set_heap (fun h => <[a := CArray (items ++ [x])]> h) m)
      | _ => None
      end
  | _ => None
  end.

(** *** [makePersistentDB], lines 22-93 *)

(** What follows a [yield] of an error when the generator is resumed:
    the rest of the body. *)
Definition or_yield (ok : bool) (error : string)
    (rest : memory → step (@gen memory) * memory) (m : memory)
  : step (@gen memory) * memory :=
  if ok then rest m
  else
    let '(e, m) := tagged "pdb" (VStr error) m in
    (Yield e (Gen (fun _ m => rest m)), m).

(** Lines 35-43 *)
Definition pdb_createSession (args : list value) : @gen memory :=
  let uid := param args in
  Gen (fun _ m =>
    let token := sessionCount (mem_db m) in
    let m := set_db (set_sessionCount (incr token)) m in
    or_yield (in_object (users (mem_db m)) uid) "no such user ID"
      (fun m =>
         let m := set_db (set_sessions <[ToString (VNum token) := uid]>) m in
         let '(r, m) := tagged "pdb" (VNum token) m in
         (Return r, m))
      m).

(** Lines 45-52 *)
Definition pdb_destroySession (args : list value) : @gen memory :=
  let token := param args in
  Gen (fun _ m =>
    or_yield (in_object (sessions (mem_db m)) token) "invalid token"
      (fun m =>
         let m := set_db (set_sessions (fun o => delete_property o token)) m in
         let '(r, m) := tagged "pdb" (VBool true) m in
         (Return r, m))
      m).

(** Lines 54-58 *)
Definition pdb_getUID (args : list value) : @gen memory :=
  let token := param args in
  Gen (fun _ m =>
    match property_of (sessions (mem_db m)) token with
    | Own uid => let '(r, m) := tagged "pdb" uid m in (Return r, m)
    | Inherited => let '(r, m) := tagged "pdb" VUndefined m in (Return r, m)
    | Missing =>
        let '(e, m) := tagged "pdb" (VStr "invalid token") m in
        (Yield e (Gen (fun x m => (Return x, m))), m)
    end).

(** Lines 60-72.  Resumed after its first [yield] the body reads
    [session.uid] off [undefined], resumed after its second it reads
    [user.username] off [undefined]. *)
Definition pdb_getUsername (args : list value) : @gen memory :=
  let token := param args in
  Gen (fun _ m =>
    let with_session (uid : value) (m : memory) :=
      match property_of (users (mem_db m)) uid with
      | Own u => let '(r, m) := tagged "pdb" (u_username u) m in (Return r, m)
      | Inherited => let '(r, m) := tagged "pdb" VUndefined m in (Return r, m)
      | Missing =>
          let '(e, m) := tagged "pdb" (VStr "invalid user in session") m in
          (Yield e (Gen (fun _ m => throw_TypeError m)), m)
      end in
    match property_of (sessions (mem_db m)) token with
    | Own uid => with_session uid m
    | Inherited => with_session VUndefined m
    | Missing =>
        let '(e, m) := tagged "pdb" (VStr "invalid token") m in
        (Yield e (Gen (fun _ m => throw_TypeError m)), m)
    end).

(** Lines 74-82 *)
Definition pdb_addUser (args : list value) : @gen memory :=
  let username := param args in
  Gen (fun _ m =>
    or_yield (truthy username && is_string username)
      "invalid username (expected non-blank string)"
      (fun m =>
         let uid := userCount (mem_db m) in
         let m := set_db (set_userCount (incr uid)) m in
         let m := set_db (set_users <[ToString (VNum uid) := User (VNum uid) username]>) m in
         let '(r, m) := tagged "pdb" (VNum uid) m in
         (Return r, m))
      m).

(** Lines 84-91 *)
Definition pdb_deleteUser (args : list value) : @gen memory :=
  let uid := param args in
  Gen (fun _ m =>
    or_yield (in_object (users (mem_db m)) uid) "no such user ID"
      (fun m =>
         let m := set_db (set_users (fun o => delete_property o uid)) m in
         let '(r, m) := tagged "pdb" (VBool true) m in
         (Return r, m))
      m).

(** [toString() { return name }], an ordinary method. *)
Definition toString_method (name : string) : @prop memory :=
  PFn (fun _ m => (inl (CVal (VStr name)), m)).

Definition makePersistentDB : @layer memory :=
  Layer [("toString", toString_method "pdb");
         ("createSession", async_generator pdb_createSession);
         ("destroySession", async_generator pdb_destroySession);
         ("getUID", async_generator pdb_getUID);
         ("getUsername", async_generator pdb_getUsername);
         ("addUser", async_generator pdb_addUser);
         ("deleteUser", async_generator pdb_deleteUser)]
        [] "pdb".

(** *** [makeMemoryCache], lines 95-156 *)

(** [store], line 111 *)
Definition store (ttl : Z) (k : string) (v : value) (c : gmap string record)
  : gmap string record :=
  <[k := Rec v ttl]> c.

(** [load], lines 113-122: the value, [undefined] without a record, and
    the cache afterwards. *)
Definition load (k : string) (c : gmap string record) : value * gmap string record :=
  match c !! k with
  | Some r =>
      let ttl := decr (r_ttl r) in
      (r_v r, if (ttl =? 0)%Z then delete k c else <[k := Rec (r_v r) ttl]> c)
  | None => (VUndefined, c)
  end.

(** The key of a token that is not a symbol. *)
Definition key (token : value) : string := "token:uid:" +:+ ToString token.

(** [`token:uid:${token}`]: the template literal converts the token
    with ToString, which throws a TypeError on a symbol. *)
Definition template (token : value) : option string :=
  match token with
  | VSym _ => None
  | _ => Some (key token)
  end.

(** The end of [createSession] and of [getUID], from the [yield] on:
    [const [trace, x] = yield; ...; store(key, v); trace.push('mc')],
    where [entry x] is the key and the value stored, or nothing when
    making the key throws. *)
Definition fill (ttl : Z) (entry : value → option (string * value)) : @gen memory :=
  Gen (fun res m =>
    match destructure res m with
    | None => throw_TypeError m
    | Some (trace, x) =>
        match entry x with
        | None => throw_TypeError m
        | Some (k, v) =>
            let m := set_cache (store ttl k v) m in
            match push trace (VStr "mc") m with
            | Some m => (Return VUndefined, m)
            | None => throw_TypeError m
            end
        end
    end).

(** Lines 129-134 *)
Definition mc_createSession (ttl : Z) (args : list value) : @gen memory :=
  let uid := param args in
  Gen (fun _ m =>
    (Yield VUndefined
       (fill ttl (fun token =>
                    match template token with
                    | Some k => Some (k, uid)
                    | None => None
                    end)), m)).

(** Lines 136-142 *)
Definition mc_destroySession (args : list value) : @gen memory :=
  let token := param args in
  Gen (fun _ m =>
    match template token with
    | None => throw_TypeError m
    | Some k => (Return VUndefined, set_cache (delete k) m)
    end).

(** Lines 144-154 *)
Definition mc_getUID (ttl : Z) (args : list value) : @gen memory :=
  let token := param args in
  Gen (fun _ m =>
    match template token with
    | None => throw_TypeError m
    | Some k =>
        let '(value, c) := load k (mem_cache m) in
        let m := set_cache (fun _ => c) m in
        if negb (is_undefined value) then
          let '(r, m) := tagged "mc" value m in (Return r, m)
        else
          (Yield VUndefined (fill ttl (fun uid => Some (k, uid))), m)
    end).

Definition makeMemoryCache (ttl : Z) : @layer memory :=
  Layer [("toString", toString_method "mc");
         ("createSession", async_generator (mc_createSession ttl));
         ("destroySession", async_generator mc_destroySession);
         ("getUID", async_generator (mc_getUID ttl))]
        [] "mc".

(** [memoryCacheTTL || 1], line 161.  The parameter is a number or is
    left out; [0 || 1] is [1]. *)
Definition ttl_of (memoryCacheTTL : option Z) : Z :=
  match memoryCacheTTL with
  | Some n => if (n =? 0)%Z then 1%Z else n
  | None => 1%Z
  end.

(** [makeDB], lines 158-164: the layers handed to [scaly]. *)
Definition makeDB (memoryCacheTTL : option Z) : list (@layer memory) :=
  [makeMemoryCache (ttl_of memoryCacheTTL); makePersistentDB].

(** A call of a method of the composed object. *)
Definition call (memoryCacheTTL : option Z) (op : string) (args : list value)
    (m : memory) : completion (bool * value) * (memory * list event) :=
  run (operation (makeDB memoryCacheTTL) op args) m.

(** What [assert.deepEqual] looks at: a value with the arrays it refers
    to written out. *)
#[warnings="-register-all"]
Inductive tree : Type :=
  | Leaf (v : value)
  | Node (items : list tree).

Fixpoint reify (fuel : nat) (h : list cell) (v : value) : tree :=
  match v with
  | VRef a =>
      match fuel, h !! a with
      | S fuel, Some (CArray items) => Node (reify fuel h <$> items)
      | _, _ => Leaf v
      end
  | _ => Leaf v
  end.

(** The result of a call, as a test compares it, and the store after. *)
Definition outcome (x : completion (bool * value) * (memory * list event))
  : option (bool * tree) * memory :=
  (match x.1 with
   | Normal (ok, v) => Some (ok, reify 2 (mem_heap x.2.1) v)
   | Abrupt _ => None
   end, x.2.1).

(** *** What the statements below speak of *)

(** The cache after [n] loads of [k]. *)
Definition loads (n : nat) (k : string) (c : gmap string record) : gmap string record :=
  Nat.iter n (fun c => (load k c).2) c.

(** The two arrays of a result [[[tag], x]], the first of them at
    address [n]. *)
Definition cells (tag : string) (x : value) (n : nat) : list cell :=
  [CArray [VStr tag]; CArray [VRef n; x]].

(** What the persistent layer holds for a token: the [uid] of its
    session, [undefined] under a name inherited from [Object.prototype],
    or nothing. *)
Definition session_uid (d : db_state) (token : value) : option value :=
  match property_of (sessions d) token with
  | Own uid => Some uid
  | Inherited => Some VUndefined
  | Missing => None
  end.

(** What [getUsername] answers: a name, or an error. *)
Definition username_of (d : db_state) (token : value) : bool * value :=
  match session_uid d token with
  | None => (false, VStr "invalid token")
  | Some uid =>
      match property_of (users d) uid with
      | Own u => (true, u_username u)
      | Inherited => (true, VUndefined)
      | Missing => (false, VStr "invalid user in session")
      end
  end.

(** The arguments the statements below are about: [undefined], [null],
    a boolean, an integer a double counts, or a string; no object and
    no symbol. *)
Definition primitive (v : value) : Prop :=
  match v with
  | VRef _ | VSym _ => False
  | VNum n => (- two53 ≤ n ≤ two53)%Z
  | _ => True
  end.

(** The stores a composed object can be in when its operations are
    called one after the other, each call awaited before the next: the
    store it starts from, and the store after a call of one of its
    operations on arguments of the kinds above. *)
Inductive reachable (memoryCacheTTL : option Z) : memory → Prop :=
  | reachable_fresh : reachable memoryCacheTTL fresh
  | reachable_call op args m :
      reachable memoryCacheTTL m →
      op ∈ allOperations (makeDB memoryCacheTTL) →
      Forall primitive args →
      reachable memoryCacheTTL (call memoryCacheTTL op args m).2.1.

(** What holds of every such store.  The counters stay within what a
    double counts; a user is kept under its number, a session under its
    token, and both numbers have been handed out already (the counter
    is past them, or stuck at [2^53]); the name of a user is a string
    that is not empty; a session holds a primitive [uid]; and a record
    of the cache under the key of a token whose value is defined holds
    the [uid] of the session of that token. *)
Definition consistent (m : memory) : Prop :=
  let d := mem_db m in
  (userCount d ≤ two53)%Z
  ∧ (sessionCount d ≤ two53)%Z
  ∧ (∀ k u, users d !! k = Some u →
       ∃ n, k = pretty n ∧ u_uid u = VNum n
            ∧ (∃ a s, u_username u = VStr (String a s))
            ∧ (n < userCount d ∨ userCount d = two53)%Z)
  ∧ (∀ k v, sessions d !! k = Some v →
       primitive v
       ∧ ∃ n, k = pretty n ∧ (n < sessionCount d ∨ sessionCount d = two53)%Z)
  ∧ (∀ tk r, mem_cache m !! ("token:uid:" +:+ tk) = Some r →
       r_v r ≠ VUndefined → sessions d !! tk = Some (r_v r)).

(** Two stores of the test [queryUID]: after [addUser('qix')] on a fresh
    [makeDB(2)], and after the [createSession(0)] that follows. *)
Definition registered : memory :=
  (call (Some 2%Z) "addUser" [VStr "qix"] fresh).2.1.
Definition logged_in : memory :=
  (call (Some 2%Z) "createSession" [VNum 0] registered).2.1.

(** The store after [n] calls of [getUID] on [token]. *)
Definition getUIDs (memoryCacheTTL : option Z) (token : value) (n : nat) (m : memory)
  : memory :=
  Nat.iter n (fun m => (call memoryCacheTTL "getUID" [token] m).2.1) m.

End TestJs.

(** ** Renumbering the positions of a log *)

(** The log with every position sent through [f]. *)
Definition relabel (f : nat → nat) (ev : event) : event :=
  match ev with
  | EvCall i a th => EvCall (f i) a th
  | EvNext s i x o => EvNext s (f i) x o
  end.

(** What becomes of a position when a layer is inserted at position [n]:
    the positions from [n] on move up by one. *)
Definition bump (n k : nat) : nat := if decide (k < n) then k else S k.

(** * Properties *)

Section Correctness.

Context {World : Type}.
Implicit Types (w : World) (t dt : list event) (v : value) (os : list obs).
Implicit Types (pend : list (nat * @gen World)) (l : @layer World).
Implicit Types (ls layers : list (@layer World)).

(** ** The fan-out *)

Definition settle (o : obs) : promise iter_result :=
  match o with
  | OYield v => Fulfilled (IterResult v false)
  | OReturn v => Fulfilled (IterResult v true)
  | OThrow e => Rejected (Thrown e)
  end.

Lemma mapM_resume pend v w t :
  mapM (fun '(j, gen) => let* (p, _) := gen_next Resume j gen v in ret p) pend (w, t)
  = (Normal (settle <$> (fanout pend v w).1),
     ((fanout pend v w).2, t ++ resume_events pend.*1 v (fanout pend v w).1)).
Proof.
  revert w t. induction pend as [|[j g] pend IH]; intros w t; simpl.
  - by rewrite app_nil_r.
  - unfold bind at 1 2. unfold gen_next at 1.
    destruct (resume g v w) as [st w1] eqn:Hst.
    destruct st as [x k|x|e]; simpl; unfold bind; rewrite (IH w1);
      destruct (fanout pend v w1) as [os w2]; simpl;
      by rewrite <- app_assoc.
Qed.

Lemma Promise_all_settle os :
  match first_thrown os with
  | Some e => Promise_all (settle <$> os) = Rejected (Thrown e)
  | None => ∃ rs, Promise_all (settle <$> os) = Fulfilled rs
  end.
Proof.
  unfold first_thrown. induction os as [|o os IH]; csimpl; [by eexists|].
  destruct o as [x|x|e]; csimpl; [| |done].
  all: destruct (head (omap thrown os)) as [e|].
  all: first [by rewrite IH | destruct IH as [rs ->]; by eexists].
Qed.

Lemma propagate_resolved pend v w t :
  (let* _ := propagate pend v in ret (true, v)) (w, t)
  = (resolved v (fanout pend v w).1,
     ((fanout pend v w).2, t ++ resume_events pend.*1 v (fanout pend v w).1)).
Proof.
  unfold propagate. do 2 unfold bind at 1. rewrite mapM_resume. unfold resolved.
  pose proof (Promise_all_settle (fanout pend v w).1) as H.
  destruct (first_thrown (fanout pend v w).1); [by rewrite H|by destruct H as [rs ->]].
Qed.

(** ** The function [walk] follows the rules of [Walk] *)

Lemma walk_Walk op args ls : ∀ i att pend w t,
  ∃ r w' dt, Walk op args i ls att pend w r w' dt
             ∧ walk op args i ls att pend (w, t) = (r, (w', t ++ dt)).
Proof.
  induction ls as [|l rest IH]; intros i att pend w t; simpl.
  - eexists _, _, _; split; [constructor|]. by rewrite app_nil_r.
  - destruct (implements op l) eqn:Himpl; simpl.
    2:{ destruct (IH (S i) att pend w t) as (r & w' & dt & HW & ->).
        eexists _, _, _; split; [by apply Walk_skip|done]. }
    unfold bind at 1. unfold invoke.
    destruct (layer_get l op) as [x|f] eqn:Hget.
    { eexists _, _, _; split; [by eapply Walk_not_function|]. by rewrite app_nil_r. }
    destruct (f args w) as [[[g|x]|e] w1] eqn:Hf.
    + unfold bind at 1. unfold call_next, gen_next.
      destruct (resume g VUndefined w1) as [[x k|x|e] w2] eqn:Hg; simpl.
      * unfold bind at 1; simpl.
        destruct (is_undefined x) eqn:Hx.
        -- destruct x; try done.
           destruct (IH (S i) (att ++ [layer_display l]) (pend ++ [(i, k)]) w2
                       ((t ++ [EvCall i args None])
                          ++ [EvNext Drive i VUndefined (OYield VUndefined)]))
             as (r & w' & dt & HW & ->).
           eexists _, _, _; split; [by eapply Walk_awaits|].
           by rewrite <- !app_assoc.
        -- eexists _, _, _; split.
           { eapply Walk_fails; [done..|]. by intros ->. }
           by rewrite <- !app_assoc.
      * unfold bind at 1; simpl.
        destruct (is_undefined x) eqn:Hx; simpl.
        -- destruct x; try done.
           destruct (IH (S i) (att ++ [layer_display l]) pend w2
                       ((t ++ [EvCall i args None])
                          ++ [EvNext Drive i VUndefined (OReturn VUndefined)]))
             as (r & w' & dt & HW & ->).
           eexists _, _, _; split; [by eapply Walk_opts_out|].
           by rewrite <- !app_assoc.
        -- rewrite propagate_resolved.
           eexists _, _, _; split.
           { eapply Walk_resolves; [done..| |].
             - by intros ->.
             - apply surjective_pairing. }
           by rewrite <- !app_assoc.
      * eexists _, _, _; split; [by eapply Walk_throws|].
        by rewrite <- !app_assoc.
    + eexists _, _, _; split; [by eapply Walk_not_generator|done].
    + eexists _, _, _; split; [by eapply Walk_call_throws|done].
Qed.

(** ** The names of the operations *)

Lemma Set_add_fold (names : list string) : ∀ s,
  fold_left Set_add names s
  = s ++ filter (fun k => k ∉ s) (first_occurrences names).
Proof.
  induction names as [|k names IH]; intros s; simpl.
  - by rewrite app_nil_r.
  - rewrite IH. unfold Set_add. case_bool_decide as Hk.
    + rewrite filter_cons_False by auto. f_equal.
      rewrite list_filter_filter. apply list_filter_iff. intros x. split; [|tauto].
      intros Hx. split; [done|]. by intros ->.
    + rewrite filter_cons_True by done. rewrite <- app_assoc. simpl. do 2 f_equal.
      rewrite list_filter_filter. apply list_filter_iff. intros x.
      rewrite not_elem_of_app, list_elem_of_singleton. tauto.
Qed.

Lemma Set_new_first_occurrences (names : list string) :
  Set_new names = first_occurrences names.
Proof.
  unfold Set_new. rewrite Set_add_fold. simpl.
  induction (first_occurrences names) as [|k names' IH]; [done|].
  rewrite filter_cons_True by apply not_elem_of_nil. by f_equal.
Qed.

Lemma elem_of_first_occurrences k (names : list string) :
  k ∈ first_occurrences names ↔ k ∈ names.
Proof.
  induction names as [|k' names IH]; simpl; [done|].
  rewrite !elem_of_cons, list_elem_of_filter, IH.
  destruct (decide (k = k')); tauto.
Qed.

Lemma NoDup_first_occurrences (names : list string) :
  NoDup (first_occurrences names).
Proof.
  induction names as [|k names IH]; simpl; [constructor|].
  apply NoDup_cons. split; [|by apply NoDup_filter].
  rewrite list_elem_of_filter. tauto.
Qed.

Lemma keys_fold layers : ∀ acc,
  fold_left (fun acc (layer : @layer World) => acc ++ Object_keys layer) layers acc
  = acc ++ concat (Object_keys <$> layers).
Proof.
  induction layers as [|l layers IH]; intros acc; simpl.
  - by rewrite app_nil_r.
  - by rewrite IH, <- app_assoc.
Qed.

Lemma elem_of_keys k layers :
  k ∈ concat (Object_keys <$> layers) ↔ ∃ l, l ∈ layers ∧ k ∈ Object_keys l.
Proof.
  induction layers as [|l layers IH]; simpl.
  - split; [by intros ?%elem_of_nil|by intros (? & ?%elem_of_nil & _)].
  - rewrite elem_of_app, IH. split.
    + intros [?|(l' & ? & ?)]; [exists l|exists l']; split; auto; apply elem_of_cons; auto.
    + intros (l' & [->|?]%elem_of_cons & ?); [by left|right; eauto].
Qed.

Lemma Object_set_fold {A} (f : string → A) (ops : list string) : ∀ o : object A,
  "__proto__" ∉ ops →
  NoDup (o.*1 ++ ops) →
  fold_left (fun o op => Object_set o op (f op)) ops o
  = o ++ ((fun op => (op, f op)) <$> ops).
Proof.
  induction ops as [|k ops IH]; intros o Hproto Hnd; simpl.
  - by rewrite app_nil_r.
  - apply not_elem_of_cons in Hproto as [Hk Hproto].
    apply NoDup_app in Hnd as (Ho & Hdisj & [Hkops Hops]%NoDup_cons).
    assert (k ∉ o.*1) as Hko by (intros Hin; eapply Hdisj; [done|by left]).
    unfold Object_set at 2.
    rewrite bool_decide_eq_false_2 by done.
    rewrite bool_decide_eq_false_2 by done.
    rewrite IH, <- app_assoc; [done|done|].
    rewrite fmap_app. simpl. apply NoDup_app. split_and!.
    + apply NoDup_app. split_and!; [done| |apply NoDup_singleton].
      intros x Hx ->%list_elem_of_singleton. done.
    + intros x [Hx| ->%list_elem_of_singleton]%elem_of_app Hin; [|done].
      eapply Hdisj; [done|by right].
    + done.
Qed.

Lemma own_property_fmap {A} (f : string → A) (ops : list string) op :
  own_property ((fun op => (op, f op)) <$> ops) op
  = if bool_decide (op ∈ ops) then Some (f op) else None.
Proof.
  induction ops as [|k ops IH]; csimpl; [done|].
  destruct (decide (k = op)) as [->|Hne].
  - rewrite bool_decide_eq_true_2 by done.
    by rewrite bool_decide_eq_true_2 by (by left).
  - rewrite bool_decide_eq_false_2 by done. rewrite IH.
    destruct (decide (op ∈ ops)) as [Hin|Hnin].
    + rewrite (bool_decide_eq_true_2 _ Hin).
      by rewrite bool_decide_eq_true_2 by (by right).
    + rewrite (bool_decide_eq_false_2 _ Hnin).
      by rewrite bool_decide_eq_false_2 by (by intros [->|?]%elem_of_cons).
Qed.

Lemma array_index_pretty k n : array_index k = Some n → k = pretty n.
Proof.
  unfold array_index. destruct (digits 0 k) as [m|]; [|done].
  case_bool_decide as Hk; simpl; [|done].
  destruct (m <? 2 ^ 32 - 1)%N; [|done]. by intros [= <-].
Qed.

Lemma index_le_lt (l : list string) :
  StronglySorted index_le l →
  NoDup l →
  Forall (fun k => is_Some (array_index k)) l →
  StronglySorted index_lt l.
Proof.
  induction 1 as [|k l Hl IH Hk]; [constructor|].
  intros [Hnin Hnd]%NoDup_cons [Hki Hli]%Forall_cons.
  constructor; [by apply IH|].
  apply Forall_forall. intros k' Hk'.
  rewrite Forall_forall in Hk, Hli.
  pose proof (Hk _ Hk') as Hle. destruct Hki as [n Hn], (Hli _ Hk') as [n' Hn'].
  unfold index_le, index_lt in *. rewrite Hn, Hn' in *. simpl in *.
  destruct (decide (n = n')) as [<-|Hne]; [|lia].
  apply array_index_pretty in Hn, Hn'. by subst.
Qed.

#[local] Instance index_le_trans : Transitive index_le.
Proof. unfold index_le. intros x y z. lia. Qed.

#[local] Instance index_le_total : Total index_le.
Proof. unfold index_le. intros x y. lia. Qed.

Lemma operation_Walk layers op args w r w' dt :
  run (operation layers op args) w = (r, (w', dt)) →
  Walk op args 0 layers [] [] w r w' dt.
Proof.
  unfold run, operation. intros H.
  destruct (walk_Walk op args layers 0 [] [] w []) as (r0 & w0 & dt0 & HW & Heq).
  rewrite Heq in H. by simplify_eq/=.
Qed.

(** ** Reading the log *)

Lemma calls_call i a th t : calls (EvCall i a th :: t) = i :: calls t.
Proof. done. Qed.
Lemma calls_next s i x o t : calls (EvNext s i x o :: t) = calls t.
Proof. done. Qed.
Lemma drives_call i a th t : drives (EvCall i a th :: t) = drives t.
Proof. done. Qed.
Lemma drives_drive i x o t : drives (EvNext Drive i x o :: t) = (i, o) :: drives t.
Proof. done. Qed.
Lemma drives_resume i x o t : drives (EvNext Resume i x o :: t) = drives t.
Proof. done. Qed.
Lemma resumes_call i a th t : resumes (EvCall i a th :: t) = resumes t.
Proof. done. Qed.
Lemma resumes_drive i x o t : resumes (EvNext Drive i x o :: t) = resumes t.
Proof. done. Qed.
Lemma resumes_resume i x o t : resumes (EvNext Resume i x o :: t) = (i, x, o) :: resumes t.
Proof. done. Qed.
Lemma awaiting_call i a th t : awaiting (EvCall i a th :: t) = awaiting t.
Proof. done. Qed.
Lemma awaiting_await i x t :
  awaiting (EvNext Drive i x (OYield VUndefined) :: t) = i :: awaiting t.
Proof. done. Qed.
Lemma awaiting_return s i x v t : awaiting (EvNext s i x (OReturn v) :: t) = awaiting t.
Proof. by destruct s. Qed.
Lemma awaiting_resume i x o t : awaiting (EvNext Resume i x o :: t) = awaiting t.
Proof. done. Qed.

Lemma calls_app t1 t2 : calls (t1 ++ t2) = calls t1 ++ calls t2.
Proof. apply omap_app. Qed.
Lemma drives_app t1 t2 : drives (t1 ++ t2) = drives t1 ++ drives t2.
Proof. apply omap_app. Qed.
Lemma resumes_app t1 t2 : resumes (t1 ++ t2) = resumes t1 ++ resumes t2.
Proof. apply omap_app. Qed.
Lemma awaiting_app t1 t2 : awaiting (t1 ++ t2) = awaiting t1 ++ awaiting t2.
Proof. apply omap_app. Qed.

Lemma calls_resume_events ks v os : calls (resume_events ks v os) = [].
Proof. revert os. induction ks; intros [|??]; simpl; auto. Qed.
Lemma drives_resume_events ks v os : drives (resume_events ks v os) = [].
Proof. revert os. induction ks; intros [|??]; simpl; auto. Qed.
Lemma awaiting_resume_events ks v os : awaiting (resume_events ks v os) = [].
Proof. revert os. induction ks; intros [|??]; simpl; auto. Qed.
Lemma resumes_resume_events ks v os :
  resumes (resume_events ks v os) = zip_with (fun k o => (k, v, o)) ks os.
Proof.
  revert os. induction ks as [|k ks IH]; intros [|o os]; try done.
  change (resume_events (k :: ks) v (o :: os))
    with (EvNext Resume k v o :: resume_events ks v os).
  rewrite resumes_resume, IH. done.
Qed.

Ltac log_simpl :=
  repeat first
    [ rewrite calls_call | rewrite calls_next | rewrite drives_call
    | rewrite drives_drive | rewrite drives_resume | rewrite resumes_call
    | rewrite resumes_drive | rewrite resumes_resume | rewrite awaiting_call
    | rewrite awaiting_await | rewrite awaiting_return | rewrite awaiting_resume
    | rewrite calls_app | rewrite drives_app | rewrite resumes_app
    | rewrite awaiting_app | rewrite calls_resume_events
    | rewrite drives_resume_events | rewrite awaiting_resume_events
    | rewrite resumes_resume_events ].

(** Case analysis on membership in an explicit list. *)
Ltac elem_cases H :=
  repeat (apply elem_of_cons in H as [H|H]; simplify_eq);
  try (apply elem_of_nil in H; destruct H).

Lemma awaiting_drives t i : i ∈ awaiting t ↔ (i, OYield VUndefined) ∈ drives t.
Proof.
  unfold awaiting, drives. rewrite !list_elem_of_omap. split.
  - intros (ev & Hev & H). exists ev. split; [done|].
    destruct ev as [|[] ? ? [[]| |]]; by simplify_eq/=.
  - intros (ev & Hev & H). exists ev. split; [done|].
    destruct ev as [|[] ? ? ?]; by simplify_eq/=.
Qed.

Lemma raised_zip ks v os :
  length os ≤ length ks →
  omap raised (zip_with (fun k o => (k, v, o)) ks os) = omap thrown os.
Proof.
  revert os. induction ks as [|k ks IH]; intros [|o os] Hlen; simpl in *; try done; try lia.
  unfold raised at 1; simpl. rewrite IH by lia. done.
Qed.

Lemma fanout_length pend v w : length (fanout pend v w).1 = length pend.
Proof.
  revert w. induction pend as [|[j g] pend IH]; intros w; simpl; [done|].
  destruct (resume g v w) as [st w1]. specialize (IH w1).
  destruct (fanout pend v w1) as [os w2]. simpl in *. by rewrite IH.
Qed.

(** ** Invariants of the walk *)

Section WalkFacts.

Variables (op : string) (args : list value).

(** The walk from position [i] touches no layer before [i]. *)
Lemma Walk_lower i ls att pend w r w' dt :
  Walk op args i ls att pend w r w' dt →
  Forall (le i) (calls dt) ∧ Forall (fun d => i ≤ d.1) (drives dt).
Proof.
  induction 1; log_simpl; repeat constructor; simpl; try lia.
  all: try (destruct_and?; eapply Forall_impl; [eassumption|simpl; intros; lia]).
Qed.

(** Every layer is driven at most once. *)
Lemma Walk_drives_NoDup i ls att pend w r w' dt :
  Walk op args i ls att pend w r w' dt → NoDup (drives dt).*1.
Proof.
  induction 1; log_simpl; csimpl;
    try done; try apply NoDup_nil_2; try apply NoDup_singleton.
  all: apply NoDup_cons; split; [|done].
  all: match goal with H : Walk _ _ _ _ _ _ _ _ _ _ |- _ =>
         apply Walk_lower in H as [_ Hd] end.
  all: rewrite list_elem_of_fmap; intros ([j o] & -> & Hin).
  all: rewrite Forall_forall in Hd; apply Hd in Hin; simpl in Hin; lia.
Qed.

Lemma drives_functional i ls att pend w r w' dt j o1 o2 :
  Walk op args i ls att pend w r w' dt →
  (j, o1) ∈ drives dt → (j, o2) ∈ drives dt → o1 = o2.
Proof.
  intros HW%Walk_drives_NoDup. revert HW.
  induction (drives dt) as [|[k o] l IH]; csimpl; [set_solver|].
  rewrite NoDup_cons, !elem_of_cons. intros [Hk Hl] [?|H1] [?|H2]; simplify_eq; auto.
  - destruct Hk. apply list_elem_of_fmap. by exists (k, o2).
  - destruct Hk. apply list_elem_of_fmap. by exists (k, o1).
Qed.

(** How a walk ends.  Either no layer resolved and nothing was resumed,
    or the log is: first drives that all declined, then the first drive
    that returned a value [v], then one resumption with [v] for every
    generator that was pending, in the order in which they suspended. *)
Lemma Walk_shape i ls att pend w r w' dt :
  Walk op args i ls att pend w r w' dt →
  (resumes dt = [] ∧ ∀ j v, (j, OReturn v) ∈ drives dt → v = VUndefined)
  ∨ ∃ pre j v os,
      dt = pre ++ EvNext Drive j VUndefined (OReturn v)
                 :: resume_events (pend.*1 ++ awaiting pre) v os
      ∧ v ≠ VUndefined
      ∧ length os = length (pend.*1 ++ awaiting pre)
      ∧ resumes pre = []
      ∧ Forall (fun d => declined d.2) (drives pre)
      ∧ Forall (fun k => k ≤ j) (calls pre)
      ∧ r = resolved v os.
Proof.
  induction 1 as [| | | | | |i l rest att pend w f g w1 v w2 os w3 Hget Hf Hg Hv Hfan
                 |i l rest att pend w f g w1 w2 r w' dt Hget Hf Hg HW IH
                 |i l rest att pend w f g w1 k w2 r w' dt Hget Hf Hg HW IH|].
  1,3-6,10: left; log_simpl; (split; [done|]); intros ? ? Hin; by elem_cases Hin.
  - done.
  - right. exists [EvCall i args None], i, v, os. simpl. rewrite app_nil_r.
    split_and!; try done.
    + pose proof (fanout_length pend v w2) as Hlen. rewrite Hfan in Hlen.
      by rewrite length_fmap.
    + by repeat constructor.
  - destruct IH as [[Hres Hret]|(pre & j & v & os & -> & Hv & Hlen & Hres & Hdecl & Hcalls & ->)].
    + left. log_simpl. split; [done|]. intros j v [?|?]%elem_of_cons; [by simplify_eq|eauto].
    + right. exists (EvCall i args None :: EvNext Drive i VUndefined (OReturn VUndefined) :: pre),
        j, v, os. log_simpl. split_and!; try done.
      * by constructor.
      * constructor; [|done].
        apply Walk_lower in HW as [_ Hd]. rewrite Forall_forall in Hd.
        assert (S i ≤ j); [|lia].
        apply (Hd (j, OReturn v)). log_simpl.
        apply elem_of_app; right; apply elem_of_cons; by left.
  - destruct IH as [[Hres Hret]|(pre & j & v & os & -> & Hv & Hlen & Hres & Hdecl & Hcalls & ->)].
    + left. log_simpl. split; [done|]. intros j v [?|?]%elem_of_cons; [by simplify_eq|eauto].
    + right. exists (EvCall i args None :: EvNext Drive i VUndefined (OYield VUndefined) :: pre),
        j, v, os. log_simpl.
      rewrite fmap_app, <- app_assoc in Hlen |- *. simpl in *.
      split_and!; try done.
      * by constructor.
      * constructor; [|done].
        apply Walk_lower in HW as [_ Hd]. rewrite Forall_forall in Hd.
        assert (S i ≤ j); [|lia].
        apply (Hd (j, OReturn v)). log_simpl.
        apply elem_of_app; right; apply elem_of_cons; by left.
Qed.

Lemma implementing_cons_true i l ls :
  implements op l = true →
  implementing op i (l :: ls) = (i, l) :: implementing op (S i) ls.
Proof.
  intros H. unfold implementing, positions. simpl.
  rewrite filter_cons_True; [done|]. simpl. by rewrite H.
Qed.

Lemma implementing_cons_false i l ls :
  implements op l = false →
  implementing op i (l :: ls) = implementing op (S i) ls.
Proof.
  intros H. unfold implementing, positions. simpl.
  rewrite filter_cons_False; [done|]. simpl. rewrite H. by intros [].
Qed.

Lemma implements_PFn l f : layer_get l op = PFn f → implements op l = true.
Proof. unfold implements. by intros ->. Qed.

Lemma resolved_not_Error v os m : resolved v os ≠ Abrupt (Error m).
Proof. unfold resolved. by destruct (first_thrown os). Qed.

Lemma declined_true o : declined o → o = OReturn VUndefined ∨ o = OYield VUndefined.
Proof. destruct o as [[]|[]|]; simpl; auto; done. Qed.

Ltac impl_cons :=
  match goal with
  | H : layer_get ?l _ = PFn _ |- _ =>
      rewrite (implementing_cons_true _ _ _ (implements_PFn _ _ H)) in *
  | H : implements _ ?l = true |- _ => rewrite (implementing_cons_true _ _ _ H) in *
  | H : implements _ ?l = false |- _ => rewrite (implementing_cons_false _ _ _ H) in *
  end.

(** A walk that ends with the error of line 72 has called and driven
    every layer of the sublist, each of them declined, and the message
    lists them after what [attemptedLayers] held at the start. *)
Lemma Walk_unhandled i ls att pend w r w' dt m :
  Walk op args i ls att pend w r w' dt →
  r = Abrupt (Error m) →
  m = unhandled_message op (att ++ (layer_display <$> (implementing op i ls).*2))
  ∧ calls dt = (implementing op i ls).*1
  ∧ (drives dt).*1 = (implementing op i ls).*1
  ∧ Forall (fun d => declined d.2) (drives dt).
Proof.
  induction 1; intros Hr; try done; try impl_cons; log_simpl; csimpl.
  - simplify_eq. by rewrite app_nil_r.
  - auto.
  - by apply resolved_not_Error in Hr.
  - destruct (IHWalk Hr) as (-> & -> & -> & ?). rewrite <- app_assoc.
    split_and!; try done. by constructor.
  - destruct (IHWalk Hr) as (-> & -> & -> & ?). rewrite <- app_assoc.
    split_and!; try done. by constructor.
Qed.

(** The converse: when every layer of the sublist was driven and
    declined, the walk ends with that error. *)
Lemma Walk_declined i ls att pend w r w' dt :
  Walk op args i ls att pend w r w' dt →
  (drives dt).*1 = (implementing op i ls).*1 →
  Forall (fun d => declined d.2) (drives dt) →
  r = Abrupt (Error (unhandled_message op
         (att ++ (layer_display <$> (implementing op i ls).*2)))).
Proof.
  induction 1; try impl_cons; log_simpl; csimpl; intros Hd Hdecl; try done.
  - by rewrite app_nil_r.
  - auto.
  - by apply Forall_cons_1 in Hdecl as [[]%declined_true _].
  - apply Forall_cons_1 in Hdecl as [[]%declined_true _]; by simplify_eq/=.
  - apply Forall_cons_1 in Hdecl as [_ Hdecl]. simplify_eq.
    rewrite (IHWalk ltac:(done) Hdecl). by rewrite <- app_assoc.
  - apply Forall_cons_1 in Hdecl as [_ Hdecl]. simplify_eq.
    rewrite (IHWalk ltac:(done) Hdecl). by rewrite <- app_assoc.
  - apply Forall_cons_1 in Hdecl as [[]%declined_true _]; by simplify_eq/=.
Qed.

(** The handlers instantiated are the first ones of the sublist. *)
Lemma Walk_calls_prefix i ls att pend w r w' dt :
  Walk op args i ls att pend w r w' dt →
  calls dt `prefix_of` (implementing op i ls).*1.
Proof.
  induction 1; try impl_cons; log_simpl; csimpl; try done; try apply prefix_nil;
    try (apply prefix_cons; done || apply prefix_nil).
Qed.

(** A first drive that suspends with a payload ends the walk there. *)
Lemma Walk_failed i ls att pend w r w' dt j e :
  Walk op args i ls att pend w r w' dt →
  (j, OYield e) ∈ drives dt → e ≠ VUndefined →
  r = Normal (false, e)
  ∧ (∃ pre, dt = pre ++ [EvNext Drive j VUndefined (OYield e)])
  ∧ resumes dt = []
  ∧ Forall (fun k => k ≤ j) (calls dt).
Proof.
  induction 1; log_simpl; intros Hin He; elem_cases Hin; try done; auto.
  - destruct (IHWalk Hin He) as (-> & [pre ->] & Hres & Hcalls).
    split_and!; [done|by eexists (_ :: _ :: pre)|done|].
    constructor; [|done].
    match goal with H : Walk _ _ _ _ _ _ _ _ _ _ |- _ =>
      apply Walk_lower in H as [_ Hd] end.
    rewrite Forall_forall in Hd. apply Hd in Hin. simpl in Hin. lia.
  - destruct (IHWalk Hin He) as (-> & [pre ->] & Hres & Hcalls).
    split_and!; [done|by eexists (_ :: _ :: pre)|done|].
    constructor; [|done].
    match goal with H : Walk _ _ _ _ _ _ _ _ _ _ |- _ =>
      apply Walk_lower in H as [_ Hd] end.
    rewrite Forall_forall in Hd. apply Hd in Hin. simpl in Hin. lia.
  - split_and!; [done|by eexists [_]|done|by repeat constructor].
Qed.

(** A first drive that throws ends the walk with what was thrown. *)
Lemma Walk_drive_thrown i ls att pend w r w' dt j e :
  Walk op args i ls att pend w r w' dt →
  (j, OThrow e) ∈ drives dt → r = Abrupt (Thrown e).
Proof. induction 1; log_simpl; intros Hin; elem_cases Hin; auto. Qed.

Lemma elem_of_resume_events ev ks v os :
  ev ∈ resume_events ks v os → ∃ k o, ev = EvNext Resume k v o.
Proof.
  revert os. induction ks as [|k ks IH]; intros [|o os] Hin; try by elem_cases Hin.
  apply elem_of_cons in Hin as [->|Hin]; eauto.
Qed.

(** A handler that throws when it is called ends the walk with what was
    thrown. *)
Lemma Walk_call_thrown i ls att pend w r w' dt j a e :
  Walk op args i ls att pend w r w' dt →
  EvCall j a (Some e) ∈ dt → r = Abrupt (Thrown e).
Proof.
  induction 1; intros Hin; elem_cases Hin; auto.
  by apply elem_of_resume_events in Hin as (? & ? & ?).
Qed.

(** A resumption that throws, when it is the first to do so, ends the
    call with what was thrown. *)
Lemma Walk_resume_thrown i ls att pend w r w' dt e :
  Walk op args i ls att pend w r w' dt →
  head (omap raised (resumes dt)) = Some e → r = Abrupt (Thrown e).
Proof.
  intros [[Hres _]|(pre & j & v & os & -> & Hv & Hlen & Hres & _ & _ & ->)]%Walk_shape.
  - by rewrite Hres.
  - log_simpl. rewrite Hres. simpl. rewrite raised_zip by lia.
    unfold resolved, first_thrown. by intros ->.
Qed.

(** Whatever a call rethrows was thrown by a layer, and is passed on as
    it was thrown. *)
Lemma Walk_thrown_origin i ls att pend w r w' dt e :
  Walk op args i ls att pend w r w' dt →
  r = Abrupt (Thrown e) →
  (∃ j a, EvCall j a (Some e) ∈ dt)
  ∨ (∃ j, (j, OThrow e) ∈ drives dt)
  ∨ head (omap raised (resumes dt)) = Some e.
Proof.
  induction 1; intros Hr; simplify_eq; log_simpl.
  - auto.
  - left. eexists _, _. by apply elem_of_cons; left.
  - right; left. eexists. by apply elem_of_cons; left.
  - right; right. simpl.
    pose proof (fanout_length pend v w2) as Hlen.
    match goal with H : fanout _ _ _ = _ |- _ => rewrite H in Hlen end.
    rewrite raised_zip by (rewrite length_fmap; simpl in *; lia).
    unfold resolved, first_thrown in Hr. by destruct (head (omap thrown os)); simplify_eq.
  - destruct (IHWalk eq_refl) as [(j & a & ?)|[[j ?]|?]]; [left|right; left|right; right].
    + eexists _, _. apply elem_of_cons; right. apply elem_of_cons; right. done.
    + eexists. apply elem_of_cons; right. done.
    + done.
  - destruct (IHWalk eq_refl) as [(j & a & ?)|[[j ?]|?]]; [left|right; left|right; right].
    + eexists _, _. apply elem_of_cons; right. apply elem_of_cons; right. done.
    + eexists. apply elem_of_cons; right. done.
    + done.
Qed.

(** Both results carry a value that is not [undefined]. *)
Lemma Walk_defined i ls att pend w r w' dt b v :
  Walk op args i ls att pend w r w' dt →
  r = Normal (b, v) → v ≠ VUndefined.
Proof.
  induction 1; intros Hr; simplify_eq; auto.
  unfold resolved in Hr. by destruct (first_thrown os); simplify_eq.
Qed.

(** The log of a walk in which a first drive returned a value. *)
Lemma Walk_resolved i ls att pend w r w' dt j v :
  Walk op args i ls att pend w r w' dt →
  (j, OReturn v) ∈ drives dt → v ≠ VUndefined →
  ∃ pre os,
    dt = pre ++ EvNext Drive j VUndefined (OReturn v)
               :: resume_events (pend.*1 ++ awaiting pre) v os
    ∧ length os = length (pend.*1 ++ awaiting pre)
    ∧ resumes pre = []
    ∧ Forall (fun k => k ≤ j) (calls pre)
    ∧ r = resolved v os.
Proof.
  intros HW Hin Hv.
  destruct (Walk_shape _ _ _ _ _ _ _ _ HW)
    as [[_ Hret]|(pre & j' & v' & os & -> & Hv' & Hlen & Hres & Hdecl & Hcalls & ->)].
  - by apply Hret in Hin.
  - revert Hin. log_simpl. rewrite elem_of_app. intros [Hin|Hin].
    + rewrite Forall_forall in Hdecl. apply Hdecl in Hin. simpl in Hin. by destruct v.
    + elem_cases Hin. by eexists _, _.
Qed.

Lemma elem_of_positions i ls j l :
  (j, l) ∈ positions i ls → i ≤ j ∧ ls !! (j - i) = Some l.
Proof.
  unfold positions. revert i. induction ls as [|l' ls IH]; intros i Hin; simpl in *.
  - by apply elem_of_nil in Hin.
  - apply elem_of_cons in Hin as [?|Hin]; simplify_eq.
    + by rewrite Nat.sub_diag.
    + apply IH in Hin as [? Hl]. split; [lia|].
      by replace (j - i) with (S (j - S i)) by lia.
Qed.

End WalkFacts.

Lemma awaiting_sublist t : awaiting t `sublist_of` (drives t).*1.
Proof.
  induction t as [|ev t IH]; [done|].
  destruct ev as [|[] k x [[]| |]]; log_simpl; csimpl; try done;
    first [by apply sublist_skip | by apply sublist_cons].
Qed.

Lemma resumed_zip (ks : list nat) v os :
  length os = length ks →
  (zip_with (fun k o => (k, v, o)) ks os).*1 = (fun k => (k, v)) <$> ks.
Proof.
  revert os. induction ks as [|k ks IH]; intros [|o os] Hlen; simplify_eq/=; [done|].
  by rewrite IH.
Qed.

Lemma raised_none (rs : list (nat * value * obs)) :
  Forall (fun x => raised x = None) rs → omap raised rs = [].
Proof. induction 1 as [|x rs Hx _ IH]; csimpl; [done|]. by rewrite Hx. Qed.

(** * The claims *)

(** C2.  A layer that suspends at its first drive with a payload [e]
    other than [undefined] ends the call: the result is [[false, e]],
    that drive is the last thing the call does, no layer after it is
    called, and no generator is resumed. *)
Theorem error_payload_ends_call layers op args w r w' dt j e :
  run (operation layers op args) w = (r, (w', dt)) →
  (j, OYield e) ∈ drives dt →
  e ≠ VUndefined →
  r = Normal (false, e)
  ∧ (∃ pre, dt = pre ++ [EvNext Drive j VUndefined (OYield e)])
  ∧ resumes dt = []
  ∧ Forall (fun k => k ≤ j) (calls dt).
Proof. intros HW%operation_Walk. by eapply Walk_failed. Qed.

(** C10.  A call that resolves to [[ok, x]] never carries [undefined]. *)
Theorem result_value_defined layers op args w b x w' dt :
  run (operation layers op args) w = (Normal (b, x), (w', dt)) →
  x ≠ VUndefined.
Proof. intros HW%operation_Walk. by eapply Walk_defined. Qed.

(** C1, amended.  When a layer returns a value [v] other than
    [undefined] at its first drive, no layer after it is called, and the
    call returns [[true, v]] unless a pending generator throws when it is
    resumed; with nothing pending it returns [[true, v]]. *)
Theorem resolution_returns_value layers op args w r w' dt j v :
  run (operation layers op args) w = (r, (w', dt)) →
  (j, OReturn v) ∈ drives dt →
  v ≠ VUndefined →
  Forall (fun k => k ≤ j) (calls dt)
  ∧ (Forall (fun x => raised x = None) (resumes dt) → r = Normal (true, v))
  ∧ (awaiting dt = [] → r = Normal (true, v)).
Proof.
  intros HW%operation_Walk Hin Hv.
  destruct (Walk_resolved _ _ _ _ _ _ _ _ _ _ _ _ HW Hin Hv)
    as (pre & os & -> & Hlen & Hres & Hcalls & ->).
  simpl in *. log_simpl. rewrite app_nil_r, Hres. simpl. split_and!.
  - done.
  - intros Hnone%raised_none. rewrite raised_zip in Hnone by lia.
    unfold resolved, first_thrown. by rewrite Hnone.
  - rewrite app_nil_r. intros Hnil. rewrite Hnil in Hlen. by destruct os.
Qed.

(** C4.  When every layer of the operation's sublist was driven and each
    of them returned [undefined] or suspended with no payload, the call
    throws an [Error] whose message names the operation and lists the
    display names of those layers in order; it does not return. *)
Theorem unhandled_operation_throws layers op args w r w' dt :
  run (operation layers op args) w = (r, (w', dt)) →
  (drives dt).*1 = (implementing op 0 layers).*1 →
  Forall (fun d => declined d.2) (drives dt) →
  r = Abrupt (Error
        ("operation was not handled by any configured layers: " +:+ op
         +:+ " (attempted layers: "
         +:+ join ", " (layer_display <$> (implementing op 0 layers).*2)
         +:+ ")")).
Proof.
  intros HW%operation_Walk Hd Hdecl.
  by rewrite (Walk_declined _ _ _ _ _ _ _ _ _ _ HW Hd Hdecl).
Qed.

(** C5, amended.  The handlers a call instantiates are, in order, the
    first ones of the sublist of layers that have the operation: the
    walk follows that sublist and stops at the first layer that resolves,
    fails or throws.  When the call ends with the error of line 72, it
    has gone through the whole sublist and the message lists exactly its
    layers.  A layer without the operation is never called. *)
Theorem dispatch_order_prefix layers op args w r w' dt :
  run (operation layers op args) w = (r, (w', dt)) →
  calls dt `prefix_of` (implementing op 0 layers).*1
  ∧ (∀ m, r = Abrupt (Error m) →
       calls dt = (implementing op 0 layers).*1
       ∧ m = unhandled_message op (layer_display <$> (implementing op 0 layers).*2))
  ∧ (∀ j l, layers !! j = Some l → implements op l = false → j ∉ calls dt).
Proof.
  intros HW%operation_Walk.
  pose proof (Walk_calls_prefix _ _ _ _ _ _ _ _ _ _ HW) as Hpre. split_and!.
  - done.
  - intros m Hm. by destruct (Walk_unhandled _ _ _ _ _ _ _ _ _ _ _ HW Hm) as (-> & -> & _).
  - intros j l Hl Himpl Hin.
    destruct Hpre as [k Hk].
    assert (j ∈ (implementing op 0 layers).*1) as Hj
      by (rewrite Hk; apply elem_of_app; by left).
    apply list_elem_of_fmap in Hj as ([j' l'] & -> & Hj).
    apply list_elem_of_filter in Hj as [Hl' [_ Hj]%elem_of_positions].
    simpl in *. rewrite Nat.sub_0_r in Hj. simplify_eq. by rewrite Himpl in Hl'.
Qed.

(** C6, amended.  What a layer throws is passed on to the caller as it
    was thrown: when the call of a handler throws, or a first drive
    throws, the call is rejected with that value; when resumptions throw
    the call is rejected, in place of the result [[true, v]], with what
    one of them threw.  A call is rejected with a layer's value only in
    these ways.  Which of several resumptions that throw reaches the
    caller is left open here: [Promise.all] takes the rejection that
    comes first in time. *)
Theorem handler_exception_rejects layers op args w r w' dt :
  run (operation layers op args) w = (r, (w', dt)) →
  (∀ j a e, EvCall j a (Some e) ∈ dt → r = Abrupt (Thrown e))
  ∧ (∀ j e, (j, OThrow e) ∈ drives dt → r = Abrupt (Thrown e))
  ∧ (omap raised (resumes dt) ≠ [] →
     ∃ e, e ∈ omap raised (resumes dt) ∧ r = Abrupt (Thrown e))
  ∧ (∀ e, r = Abrupt (Thrown e) →
       (∃ j a, EvCall j a (Some e) ∈ dt)
       ∨ (∃ j, (j, OThrow e) ∈ drives dt)
       ∨ e ∈ omap raised (resumes dt)).
Proof.
  intros HW%operation_Walk. split_and!.
  - intros j a e. by eapply Walk_call_thrown.
  - intros j e. by eapply Walk_drive_thrown.
  - destruct (omap raised (resumes dt)) as [|e rest] eqn:Hraised; [done|].
    intros _. exists e. split; [by left|].
    eapply Walk_resume_thrown; [done|]. by rewrite Hraised.
  - intros e Hr.
    destruct (Walk_thrown_origin _ _ _ _ _ _ _ _ _ _ _ HW Hr) as [?|[?|Hhead]]; eauto.
    right; right. destruct (omap raised (resumes dt)) as [|e' rest]; [done|].
    simpl in Hhead. simplify_eq. by left.
Qed.

(** C7.  When a generator returns [undefined] at its first drive, the
    loop goes on with the layers after it and with the same pending
    list; in a whole call such a generator is never resumed, nor is it
    among the generators that wait for the value. *)
Theorem opt_out_not_resumed :
  (∀ op args i l rest att pend w t f g w1 w2,
     layer_get l op = PFn f →
     f args w = (inl (CGen g), w1) →
     resume g VUndefined w1 = (Return VUndefined, w2) →
     walk op args i (l :: rest) att pend (w, t)
     = walk op args (S i) rest (att ++ [layer_display l]) pend
         (w2, t ++ [EvCall i args None;
                    EvNext Drive i VUndefined (OReturn VUndefined)]))
  ∧ (∀ layers op args w r w' dt j,
       run (operation layers op args) w = (r, (w', dt)) →
       (j, OReturn VUndefined) ∈ drives dt →
       (j ∉ awaiting dt) ∧ (∀ x o, (j, x, o) ∉ resumes dt)).
Proof.
  split.
  - intros op args i l rest att pend w t f g w1 w2 Hget Hf Hg. simpl.
    rewrite (implements_PFn _ _ _ Hget). simpl.
    unfold bind at 1. unfold invoke. rewrite Hget, Hf.
    unfold bind at 1. simpl. rewrite Hg. simpl.
    unfold bind at 1. simpl. by rewrite <- app_assoc.
  - intros layers op args w r w' dt j HW%operation_Walk Hin.
    assert (j ∉ awaiting dt) as Hna.
    { intros Hj%awaiting_drives.
      by pose proof (drives_functional _ _ _ _ _ _ _ _ _ _ _ _ _ HW Hin Hj). }
    split; [done|]. intros x o Hres.
    destruct (Walk_shape _ _ _ _ _ _ _ _ _ _ HW)
      as [[Hnil _]|(pre & j' & v & os & -> & Hv & Hlen & Hnil & _ & _ & _)].
    + rewrite Hnil in Hres. by apply elem_of_nil in Hres.
    + apply Hna. revert Hres. log_simpl. rewrite Hnil. simpl.
      intros Hres. apply elem_of_app; left.
      apply (list_elem_of_fmap_2 fst) in Hres.
      rewrite resumed_zip in Hres by done.
      apply list_elem_of_fmap in Hres as (k & ? & ?). by simplify_eq/=.
Qed.

(** C8, amended.  The names the composed object is built from are the
    own enumerable keys of the layers, each once, in the order of their
    first occurrence in the concatenation of the layers' key lists.
    When [__proto__] is not one of them, the object holds under each
    name the method of that operation and holds nothing else, and it
    lists its keys with the array indices first, in ascending order,
    and the other names behind them in the order of first occurrence. *)
Theorem operation_names_union layers :
  allOperations layers = first_occurrences (concat (Object_keys <$> layers))
  ∧ NoDup (allOperations layers)
  ∧ (∀ k, k ∈ allOperations layers ↔ ∃ l, l ∈ layers ∧ k ∈ Object_keys l)
  ∧ ("__proto__" ∉ allOperations layers →
     (∀ op, own_property (DB layers) op
            = if bool_decide (op ∈ allOperations layers)
              then Some (operation layers op) else None)
     ∧ ∃ indices,
         OwnPropertyKeys (DB layers)
         = indices ++ filter (fun k => array_index k = None) (allOperations layers)
         ∧ indices ≡ₚ filter (fun k => is_Some (array_index k)) (allOperations layers)
         ∧ StronglySorted index_lt indices).
Proof.
  assert (allOperations layers = first_occurrences (concat (Object_keys <$> layers))) as Heq.
  { unfold allOperations. by rewrite keys_fold, Set_new_first_occurrences. }
  assert (NoDup (allOperations layers)) as Hnd
    by (rewrite Heq; apply NoDup_first_occurrences).
  split_and!.
  - done.
  - done.
  - intros k. by rewrite Heq, elem_of_first_occurrences, elem_of_keys.
  - intros Hproto.
    assert (DB layers = (fun op => (op, operation layers op)) <$> allOperations layers)
      as HDB by (unfold DB; by rewrite Object_set_fold).
    split.
    + intros op. by rewrite HDB, own_property_fmap.
    + assert ((DB layers).*1 = allOperations layers) as Hkeys.
      { rewrite HDB, <- list_fmap_compose. apply list_fmap_id. }
      unfold OwnPropertyKeys. rewrite Hkeys. eexists. split_and!; [done| |].
      * apply merge_sort_Permutation.
      * apply index_le_lt.
        -- apply (StronglySorted_merge_sort _).
        -- rewrite merge_sort_Permutation. by apply NoDup_filter.
        -- rewrite merge_sort_Permutation. apply Forall_forall.
           by intros k [? _]%list_elem_of_filter.
Qed.

(** X25.  Called with an array of layers as its first argument the
    entry point returns the composed object; called with anything else
    as its first argument, a single layer object included, or with no
    argument, it throws the TypeError of line 3. *)
Theorem entry_point_requires_array (arguments : list (@argument World)) :
  (∀ ls rest, arguments = AArray ls :: rest → scaly arguments = Normal (DB ls))
  ∧ ((∀ ls rest, arguments ≠ AArray ls :: rest) →
     scaly arguments = Abrupt (TypeError "layers must be an array")).
Proof.
  split.
  - by intros ls rest ->.
  - intros Hno. destruct arguments as [|[ls|l|v] rest]; try done.
    by destruct (Hno ls rest).
Qed.

End Correctness.

(** * The claims on concrete layers *)

Import Example.

(** [cache] asks for the value, [db] returns it: the call returns
    [[true, 'qix']] and [cache] has been handed ['qix']. *)
Example cache_then_db :
  get [cache; db]
  = (Normal (true, VStr "qix"),
     ([VStr "qix"],
      [EvCall 0 [] None; EvNext Drive 0 VUndefined (OYield VUndefined);
       EvCall 1 [] None; EvNext Drive 1 VUndefined (OReturn (VStr "qix"));
       EvNext Resume 0 (VStr "qix") (OReturn VUndefined)])).
Proof. reflexivity. Qed.

(** [writer] has no [get], [strict] signals an error. *)
Example writer_then_strict :
  get [writer; strict]
  = (Normal (false, VStr "invalid"),
     ([], [EvCall 1 [] None; EvNext Drive 1 VUndefined (OYield (VStr "invalid"))])).
Proof. reflexivity. Qed.

(** Two layers that opt out. *)
Example quiet_twice :
  get [quiet; quiet]
  = (Abrupt (Error "operation was not handled by any configured layers: get (attempted layers: quiet, quiet)"),
     ([], [EvCall 0 [] None; EvNext Drive 0 VUndefined (OReturn VUndefined);
           EvCall 1 [] None; EvNext Drive 1 VUndefined (OReturn VUndefined)])).
Proof. reflexivity. Qed.

(** [test.js], line 230: the result is the object of [pdb], and by the
    time the call returns [mc] has pushed its name on it. *)
Example create_session_trace :
  run (operation [mc; pdb] "createSession" [VNum 0]) []
  = (Normal (true, VRef 0),
     ([(["pdb"; "mc"], VNum 0)],
      [EvCall 0 [VNum 0] None; EvNext Drive 0 VUndefined (OYield VUndefined);
       EvCall 1 [VNum 0] None; EvNext Drive 1 VUndefined (OReturn (VRef 0));
       EvNext Resume 0 (VRef 0) (OReturn VUndefined)])).
Proof. reflexivity. Qed.

(** Membership in a list that computes. *)
Ltac in_list := apply (bool_decide_unpack _); vm_compute; exact I.

(** C1 on [cache; db]: [db], at position 1, returns ['qix']. *)
Lemma resolution_returns_value_witness :
  let r := (get [cache; db]).1 in
  let dt := (get [cache; db]).2.2 in
  Forall (fun k => k ≤ 1) (calls dt)
  ∧ (Forall (fun x => raised x = None) (resumes dt) → r = Normal (true, VStr "qix"))
  ∧ (awaiting dt = [] → r = Normal (true, VStr "qix")).
Proof.
  apply (resolution_returns_value [cache; db] "get" [] [] _ [VStr "qix"]).
  - reflexivity.
  - in_list.
  - discriminate.
Defined.

(** C1 as stated fails on [broken "boom"; db]: [db] returns ['qix'] at its
    first drive, and the call is rejected with ['boom']. *)
Lemma resolution_rejected_by_resumption :
  get [broken "boom"; db]
  = (Abrupt (Thrown (VStr "boom")),
     ([], [EvCall 0 [] None; EvNext Drive 0 VUndefined (OYield VUndefined);
           EvCall 1 [] None; EvNext Drive 1 VUndefined (OReturn (VStr "qix"));
           EvNext Resume 0 (VStr "qix") (OThrow (VStr "boom"))]))
  ∧ (get [broken "boom"; db]).1 ≠ Normal (true, VStr "qix").
Proof. split; [reflexivity|discriminate]. Qed.

(** C2 on [cache; strict; db]: [strict], at position 1, yields ['invalid']. *)
Lemma error_payload_ends_call_witness :
  let r := (get [cache; strict; db]).1 in
  let dt := (get [cache; strict; db]).2.2 in
  r = Normal (false, VStr "invalid")
  ∧ (∃ pre, dt = pre ++ [EvNext Drive 1 VUndefined (OYield (VStr "invalid"))])
  ∧ resumes dt = []
  ∧ Forall (fun k => k ≤ 1) (calls dt).
Proof.
  apply (error_payload_ends_call [cache; strict; db] "get" [] [] _ []).
  - reflexivity.
  - in_list.
  - discriminate.
Defined.

(** C4 on [quiet; writer; cache]. *)
Lemma unhandled_operation_throws_witness :
  (get [quiet; writer; cache]).1
  = Abrupt (Error "operation was not handled by any configured layers: get (attempted layers: quiet, cache)").
Proof.
  apply (unhandled_operation_throws [quiet; writer; cache] "get" [] [] _ []
           (get [quiet; writer; cache]).2.2).
  - reflexivity.
  - reflexivity.
  - vm_compute. repeat constructor.
Defined.

(** C5 on [writer; db; replica]. *)
Lemma dispatch_order_prefix_witness :
  let r := (get [writer; db; replica]).1 in
  let dt := (get [writer; db; replica]).2.2 in
  calls dt `prefix_of` (implementing "get" 0 [writer; db; replica]).*1
  ∧ (∀ m, r = Abrupt (Error m) →
       calls dt = (implementing "get" 0 [writer; db; replica]).*1
       ∧ m = unhandled_message "get"
               (layer_display <$> (implementing "get" 0 [writer; db; replica]).*2))
  ∧ (∀ j l, [writer; db; replica] !! j = Some l →
       implements "get" l = false → j ∉ calls dt).
Proof.
  apply (dispatch_order_prefix [writer; db; replica] "get" [] [] _ []).
  reflexivity.
Defined.

(** C5 as stated fails on [db; replica]: both have [get], only [db] is
    called. *)
Lemma dispatch_stops_early :
  calls (get [db; replica]).2.2 = [0]
  ∧ (implementing "get" 0 [db; replica]).*1 = [0; 1]
  ∧ calls (get [db; replica]).2.2 ≠ (implementing "get" 0 [db; replica]).*1.
Proof. split_and!; [reflexivity|reflexivity|discriminate]. Qed.

(** C6 on [broken "boom"; db]: the cache throws when it is resumed. *)
Lemma handler_exception_rejects_witness :
  let r := (get [broken "boom"; db]).1 in
  let dt := (get [broken "boom"; db]).2.2 in
  (∀ j a e, EvCall j a (Some e) ∈ dt → r = Abrupt (Thrown e))
  ∧ (∀ j e, (j, OThrow e) ∈ drives dt → r = Abrupt (Thrown e))
  ∧ (omap raised (resumes dt) ≠ [] →
     ∃ e, e ∈ omap raised (resumes dt) ∧ r = Abrupt (Thrown e))
  ∧ (∀ e, r = Abrupt (Thrown e) →
       (∃ j a, EvCall j a (Some e) ∈ dt)
       ∨ (∃ j, (j, OThrow e) ∈ drives dt)
       ∨ e ∈ omap raised (resumes dt)).
Proof.
  apply (handler_exception_rejects [broken "boom"; db] "get" [] [] _ []).
  reflexivity.
Defined.

(** C6 as stated fails on [broken "first"; broken "second"; db]: both
    pending generators throw when resumed, the caller sees ['first'] and
    never ['second']. *)
Lemma second_exception_dropped :
  get [broken "first"; broken "second"; db]
  = (Abrupt (Thrown (VStr "first")),
     ([], [EvCall 0 [] None; EvNext Drive 0 VUndefined (OYield VUndefined);
           EvCall 1 [] None; EvNext Drive 1 VUndefined (OYield VUndefined);
           EvCall 2 [] None; EvNext Drive 2 VUndefined (OReturn (VStr "qix"));
           EvNext Resume 0 (VStr "qix") (OThrow (VStr "first"));
           EvNext Resume 1 (VStr "qix") (OThrow (VStr "second"))]))
  ∧ (get [broken "first"; broken "second"; db]).1 ≠ Abrupt (Thrown (VStr "second")).
Proof. split; [reflexivity|discriminate]. Qed.

(** C7 on [quiet; cache; db]. *)
Lemma opt_out_not_resumed_witness :
  walk "get" [] 0 [quiet; cache; db] [] [] ([], [])
  = walk "get" [] 1 [cache; db] ["quiet"] []
      ([], [EvCall 0 [] None; EvNext Drive 0 VUndefined (OReturn VUndefined)])
  ∧ (0 ∉ awaiting (get [quiet; cache; db]).2.2)
  ∧ (∀ x o, (0, x, o) ∉ resumes (get [quiet; cache; db]).2.2).
Proof.
  destruct (@opt_out_not_resumed store) as [Hstep Hcall]. split.
  - eapply (Hstep "get" [] 0 quiet [cache; db] [] [] [] []); reflexivity.
  - apply (Hcall [quiet; cache; db] "get" [] [] (get [quiet; cache; db]).1
             [VStr "qix"] (get [quiet; cache; db]).2.2 0).
    + reflexivity.
    + in_list.
Defined.

(** C8 on [cache; db; numbered]. *)
Lemma operation_names_union_witness :
  (∀ op, own_property (DB [cache; db; numbered]) op
         = if bool_decide (op ∈ allOperations [cache; db; numbered])
           then Some (operation [cache; db; numbered] op) else None)
  ∧ ∃ indices,
      OwnPropertyKeys (DB [cache; db; numbered])
      = indices ++ filter (fun k => array_index k = None)
                     (allOperations [cache; db; numbered])
      ∧ indices ≡ₚ filter (fun k => is_Some (array_index k))
                     (allOperations [cache; db; numbered])
      ∧ StronglySorted index_lt indices.
Proof.
  apply (proj2 (proj2 (proj2 (operation_names_union [cache; db; numbered])))).
  apply (bool_decide_unpack _). vm_compute. exact I.
Defined.

(** C8 as stated fails on [db; numbered]: the names are first seen in
    the order [get], [1], and the composed object lists [1] before
    [get]. *)
Lemma operation_names_reordered :
  first_occurrences (concat (Object_keys <$> [db; numbered])) = ["get"; "1"]
  ∧ OwnPropertyKeys (DB [db; numbered]) = ["1"; "get"]
  ∧ OwnPropertyKeys (DB [db; numbered])
    ≠ first_occurrences (concat (Object_keys <$> [db; numbered])).
Proof. split_and!; [reflexivity|reflexivity|discriminate]. Qed.

(** The entry point on a call with [null]. *)
Lemma entry_point_requires_array_witness :
  @scaly store [AValue VNull] = Abrupt (TypeError "layers must be an array").
Proof.
  apply (proj2 (entry_point_requires_array [AValue VNull])).
  discriminate.
Defined.

(** C9.  The entry point at the call [scaly(cache, db)], the form of
    [index.d.ts] and of the README: the first argument is a layer
    object, not an array, and the call throws the TypeError of line 3,
    while [scaly([cache, db])] returns the composed object. *)
Lemma variadic_form_rejected :
  scaly [AObject cache; AObject db] = Abrupt (TypeError "layers must be an array")
  ∧ scaly [AArray [cache; db]] = Normal (DB [cache; db]).
Proof. split; reflexivity. Qed.

(** C10 on [cache; db]. *)
Lemma result_value_defined_witness : VStr "qix" ≠ VUndefined.
Proof.
  apply (result_value_defined [cache; db] "get" [] [] true (VStr "qix")
           [VStr "qix"] (get [cache; db]).2.2).
  reflexivity.
Defined.

(** * Further properties of the engine *)

Section Further.

Context {World : Type}.
Implicit Types (w : World) (t dt : list event) (v : value) (os : list obs).
Implicit Types (pend : list (nat * @gen World)) (l : @layer World).
Implicit Types (ls layers : list (@layer World)).

(** The tactics for reading a log, as in the first part. *)
Ltac log_simpl :=
  repeat first
    [ rewrite calls_call | rewrite calls_next | rewrite drives_call
    | rewrite drives_drive | rewrite drives_resume | rewrite resumes_call
    | rewrite resumes_drive | rewrite resumes_resume | rewrite awaiting_call
    | rewrite awaiting_await | rewrite awaiting_return | rewrite awaiting_resume
    | rewrite calls_app | rewrite drives_app | rewrite resumes_app
    | rewrite awaiting_app | rewrite calls_resume_events
    | rewrite drives_resume_events | rewrite awaiting_resume_events
    | rewrite resumes_resume_events ].

Ltac elem_cases H :=
  repeat (apply elem_of_cons in H as [H|H]; simplify_eq);
  try (apply elem_of_nil in H; destruct H).

(** ** The rules of [Walk] determine the function [walk] *)

(** Rewriting with what a rule of [Walk] says about the layer at hand. *)
Ltac walk_facts :=
  repeat match goal with
  | H : implements _ _ = _ |- _ => rewrite H
  | H : layer_get _ _ = PFn _ |- _ =>
      progress (rewrite ?(implements_PFn _ _ _ H), ?H; simpl)
  | H : layer_get _ _ = PData _ |- _ => progress (rewrite H)
  | H : _ _ _ = (_, _) |- _ => progress (rewrite H; simpl)
  | H : ?v ≠ VUndefined |- context [is_undefined ?v] =>
      replace (is_undefined v) with false by (by destruct v); simpl
  | |- context [propagate ?p ?v (?w, ?t)] =>
      let Hp := fresh in
      pose proof (propagate_resolved p v w t) as Hp;
      unfold bind at 1 in Hp; rewrite Hp; clear Hp; simpl
  | |- context [bind _ _] => unfold bind at 1; simpl
  | |- context [invoke _ _ _ _] => unfold invoke
  end.

Lemma Walk_walk op args i ls att pend w r w' dt :
  Walk op args i ls att pend w r w' dt →
  ∀ t, walk op args i ls att pend (w, t) = (r, (w', t ++ dt)).
Proof.
  induction 1; intros t; simpl; walk_facts;
    rewrite ?IHWalk, ?app_nil_r, <- ?app_assoc; done.
Qed.

Lemma Walk_run layers op args w r w' dt :
  Walk op args 0 layers [] [] w r w' dt →
  run (operation layers op args) w = (r, (w', dt)).
Proof. intros HW. unfold run, operation. by rewrite (Walk_walk _ _ _ _ _ _ _ _ _ _ HW). Qed.

(** ** Layers behind the one that decides *)

Lemma Walk_app op args i ls more att pend w r w' dt :
  Walk op args i ls att pend w r w' dt →
  (∀ m, r ≠ Abrupt (Error m)) →
  Walk op args i (ls ++ more) att pend w r w' dt.
Proof.
  induction 1; intros Hne; simpl; try (by exfalso; eapply Hne);
    solve [econstructor; eauto].
Qed.

(** X1.  A call that the layers answer (with a result or with an
    exception) is not changed by layers added behind them: same result,
    same store, same log. *)
Theorem deeper_layers_irrelevant layers more op args w r w' dt :
  run (operation layers op args) w = (r, (w', dt)) →
  (∀ m, r ≠ Abrupt (Error m)) →
  run (operation (layers ++ more) op args) w = (r, (w', dt)).
Proof.
  intros HW%operation_Walk Hne. apply Walk_run. by apply Walk_app.
Qed.

(** ** Layers without the operation *)

Lemma Walk_none op args ls : ∀ i att pend w,
  Forall (fun l => implements op l = false) ls →
  Walk op args i ls att pend w (Abrupt (Error (unhandled_message op att))) w [].
Proof.
  induction ls as [|l ls IH]; intros i att pend w Hall.
  - constructor.
  - apply Forall_cons_1 in Hall as [Hl Hall]. apply Walk_skip; auto.
Qed.

(** X2.  When no layer has a truthy [op] property (also when [op] is a
    key of some layer, with a falsy value), the call throws the error of
    line 72 with an empty list of attempted layers, and touches neither
    a layer nor the store. *)
Theorem no_layer_implements layers op args w :
  (∀ l, l ∈ layers → implements op l = false) →
  run (operation layers op args) w
  = (Abrupt (Error ("operation was not handled by any configured layers: "
                    +:+ op +:+ " (attempted layers: )")),
     (w, [])).
Proof.
  intros Hall. apply Walk_run.
  apply (Walk_none op args layers 0 [] [] w). by apply Forall_forall.
Qed.

Lemma fanout_relabel (f : nat → nat) pend v w :
  fanout (prod_map f id <$> pend) v w = fanout pend v w.
Proof.
  revert w. induction pend as [|[j g] pend IH]; intros w; csimpl; [done|].
  destruct (resume g v w) as [st w1]. by rewrite IH.
Qed.

Lemma resume_events_relabel (f : nat → nat) (ks : list nat) v os :
  relabel f <$> resume_events ks v os = resume_events (f <$> ks) v os.
Proof.
  revert os. induction ks as [|k ks IH]; intros [|o os]; csimpl; try done.
  f_equal. apply IH.
Qed.

Lemma fst_relabel (f : nat → nat) pend :
  (prod_map f id <$> pend).*1 = f <$> pend.*1.
Proof. induction pend as [|[j g] pend IH]; csimpl; [done|]. by rewrite IH. Qed.

(** A walk does not depend on how the positions are numbered. *)
Lemma Walk_relabel (f : nat → nat) op args i ls att pend w r w' dt :
  Walk op args i ls att pend w r w' dt →
  ∀ i', (∀ k, f (i + k) = i' + k) →
  Walk op args i' ls att (prod_map f id <$> pend) w r w' (relabel f <$> dt).
Proof.
  induction 1 as [| | | | | | |i l rest att pend w f' g w1 w2 r w' dt Hget Hf Hg HW IH
                 |i l rest att pend w f' g w1 k w2 r w' dt Hget Hf Hg HW IH|];
    intros i' Hf'; csimpl;
    pose proof (Hf' 0) as Hfi; rewrite !Nat.add_0_r in Hfi; rewrite ?Hfi.
  - constructor.
  - apply Walk_skip; [done|]. apply IHWalk. intros k.
    replace (S i + k) with (i + S k) by lia. rewrite Hf'. lia.
  - by eapply Walk_not_function.
  - by eapply Walk_call_throws.
  - by eapply Walk_not_generator.
  - by eapply Walk_throws.
  - rewrite resume_events_relabel, <- fst_relabel.
    eapply Walk_resolves; eauto. by rewrite fanout_relabel.
  - eapply Walk_opts_out; eauto. apply IH. intros k.
    replace (S i + k) with (i + S k) by lia. rewrite Hf'. lia.
  - eapply Walk_awaits; eauto.
    specialize (IH (S i')). rewrite fmap_app in IH. csimpl in IH. rewrite Hfi in IH.
    apply IH. intros k'.
    replace (S (i + k')) with (i + S k') by lia. rewrite Hf'. lia.
  - by eapply Walk_fails.
Qed.

Lemma bump_lt n k : k < n → bump n k = k.
Proof. unfold bump. intros. by case_decide. Qed.

Lemma bump_ge n k : n ≤ k → bump n k = S k.
Proof. unfold bump. intros. case_decide; [lia|done]. Qed.

Lemma relabel_pend_lt n pend :
  Forall (fun k => k < n) pend.*1 → prod_map (bump n) id <$> pend = pend.
Proof.
  induction pend as [|[j g] pend IH]; csimpl; [done|].
  intros [Hj Hall]%Forall_cons_1. rewrite IH by done. by rewrite bump_lt.
Qed.

Lemma relabel_resumes_lt n (ks : list nat) v os :
  Forall (fun k => k < n) ks →
  relabel (bump n) <$> resume_events ks v os = resume_events ks v os.
Proof.
  intros Hall. rewrite resume_events_relabel. f_equal.
  induction Hall as [|k ks Hk _ IH]; csimpl; [done|]. by rewrite IH, bump_lt.
Qed.

(** Inserting a layer without the operation renumbers the log and
    changes nothing else. *)
Lemma Walk_insert op args l more : ∀ ls i att pend w r w' dt,
  implements op l = false →
  Forall (fun k => k < i) pend.*1 →
  Walk op args i (ls ++ more) att pend w r w' dt →
  Walk op args i (ls ++ l :: more) att pend w r w'
    (relabel (bump (i + length ls)) <$> dt).
Proof.
  induction ls as [|a ls IH]; intros i att pend w r w' dt Himpl Hpend HW; simpl in *.
  - rewrite Nat.add_0_r. apply Walk_skip; [done|].
    rewrite <- (relabel_pend_lt i pend) at 1 by done.
    apply (Walk_relabel _ _ _ _ _ _ _ _ _ _ _ HW). intros k. apply bump_ge. lia.
  - assert (Forall (fun k => k < S i) pend.*1) as Hpend'
      by (eapply Forall_impl; [done|simpl; lia]).
    assert (bump (i + S (length ls)) i = i) as Hi by (apply bump_lt; lia).
    assert (Forall (fun k => k < i + S (length ls)) pend.*1) as Hpend''
      by (eapply Forall_impl; [done|simpl; lia]).
    inversion HW; subst; csimpl; rewrite ?Hi.
    + apply Walk_skip; [done|]. rewrite <- Nat.add_succ_comm. by apply IH.
    + by eapply Walk_not_function.
    + by eapply Walk_call_throws.
    + by eapply Walk_not_generator.
    + by eapply Walk_throws.
    + rewrite relabel_resumes_lt by done. by eapply Walk_resolves.
    + eapply Walk_opts_out; eauto. rewrite <- Nat.add_succ_comm. by apply IH.
    + eapply Walk_awaits; eauto. rewrite <- Nat.add_succ_comm. apply IH; [done| |done].
      rewrite fmap_app. apply Forall_app. split; [done|]. repeat constructor.
    + by eapply Walk_fails.
Qed.

(** X3.  A layer that lacks the operation is transparent: inserting it
    anywhere in the list leaves the result and the store of every call
    of that operation as they were, and the log too, but for the
    positions of the layers behind it, which move up by one. *)
Theorem skipped_layer_transparent layers more l op args w r w' dt :
  implements op l = false →
  run (operation (layers ++ more) op args) w = (r, (w', dt)) →
  run (operation (layers ++ l :: more) op args) w
  = (r, (w', relabel (bump (length layers)) <$> dt)).
Proof.
  intros Himpl HW%operation_Walk. apply Walk_run.
  by apply (Walk_insert op args l more layers 0 [] [] w r w' dt).
Qed.

(** ** What the handlers are given *)

Lemma Walk_call_args op args i ls att pend w r w' dt j a th :
  Walk op args i ls att pend w r w' dt → EvCall j a th ∈ dt → a = args.
Proof.
  induction 1; intros Hin; elem_cases Hin; auto.
  by apply elem_of_resume_events in Hin as (? & ? & ?).
Qed.

Lemma Walk_drive_arg op args i ls att pend w r w' dt j x o :
  Walk op args i ls att pend w r w' dt → EvNext Drive j x o ∈ dt → x = VUndefined.
Proof.
  induction 1; intros Hin; elem_cases Hin; auto.
  by apply elem_of_resume_events in Hin as (? & ? & ?).
Qed.

(** X4.  Every handler a call instantiates is called with the arguments
    of the call, unchanged, and every first drive passes no value. *)
Theorem handlers_get_call_arguments layers op args w r w' dt :
  run (operation layers op args) w = (r, (w', dt)) →
  (∀ j a th, EvCall j a th ∈ dt → a = args)
  ∧ (∀ j x o, EvNext Drive j x o ∈ dt → x = VUndefined).
Proof.
  intros HW%operation_Walk. split.
  - intros j a th. by eapply Walk_call_args.
  - intros j x o. by eapply Walk_drive_arg.
Qed.

(** ** Where a result comes from *)

Lemma Walk_true_origin op args i ls att pend w r w' dt x :
  Walk op args i ls att pend w r w' dt →
  r = Normal (true, x) → ∃ j, (j, OReturn x) ∈ drives dt.
Proof.
  induction 1; intros Hr; simplify_eq; log_simpl.
  - auto.
  - unfold resolved in Hr. destruct (first_thrown os); simplify_eq.
    eexists. by apply elem_of_cons; left.
  - destruct IHWalk as [j ?]; [done|]. exists j. by apply elem_of_cons; right.
  - destruct IHWalk as [j ?]; [done|]. exists j. by apply elem_of_cons; right.
Qed.

Lemma Walk_false_origin op args i ls att pend w r w' dt x :
  Walk op args i ls att pend w r w' dt →
  r = Normal (false, x) → ∃ j, (j, OYield x) ∈ drives dt.
Proof.
  induction 1; intros Hr; simplify_eq; log_simpl.
  - auto.
  - unfold resolved in Hr. by destruct (first_thrown os).
  - destruct IHWalk as [j ?]; [done|]. exists j. by apply elem_of_cons; right.
  - destruct IHWalk as [j ?]; [done|]. exists j. by apply elem_of_cons; right.
  - eexists. by apply elem_of_cons; left.
Qed.

Lemma omap_nil_Forall {A B} (f : A → option B) (xs : list A) :
  omap f xs = [] → Forall (fun x => f x = None) xs.
Proof.
  induction xs as [|x xs IH]; csimpl; [done|].
  destruct (f x) eqn:Hx; [done|]. intros H. constructor; auto.
Qed.

(** X5.  The engine makes up no result.  A call that returns [[true, x]]
    had a layer return exactly [x] at its first drive, and every pending
    generator has been resumed without throwing; a call that returns
    [[false, x]] had a layer yield exactly [x] at its first drive, that
    drive was its last step, and no generator was resumed. *)
Theorem result_comes_from_a_layer layers op args w b x w' dt :
  run (operation layers op args) w = (Normal (b, x), (w', dt)) →
  if b then
    (∃ j, (j, OReturn x) ∈ drives dt)
    ∧ Forall (fun y => raised y = None) (resumes dt)
  else
    (∃ pre j, dt = pre ++ [EvNext Drive j VUndefined (OYield x)])
    ∧ resumes dt = [].
Proof.
  intros HW%operation_Walk.
  pose proof (Walk_defined _ _ _ _ _ _ _ _ _ _ _ _ HW eq_refl) as Hx.
  destruct b.
  - destruct (Walk_true_origin _ _ _ _ _ _ _ _ _ _ _ HW eq_refl) as [j Hj].
    split; [by eauto|].
    destruct (Walk_resolved _ _ _ _ _ _ _ _ _ _ _ _ HW Hj Hx)
      as (pre & os & -> & Hlen & Hres & _ & Hr).
    simpl in *. log_simpl. rewrite Hres. simpl.
    apply omap_nil_Forall. rewrite raised_zip by lia.
    unfold resolved, first_thrown in Hr.
    destruct (omap thrown os); [done|by simplify_eq/=].
  - destruct (Walk_false_origin _ _ _ _ _ _ _ _ _ _ _ HW eq_refl) as [j Hj].
    destruct (Walk_failed _ _ _ _ _ _ _ _ _ _ _ _ HW Hj Hx) as (_ & [pre ->] & Hres & _).
    split; [by eauto|done].
Qed.

(** ** The generators that wait for the value *)

(** X24.  What becomes of the generators that wait.  A generator that
    suspends with no payload at its first drive is put, as it stands at
    that [yield], at the end of the pending list, and the walk goes on.
    When a layer then returns a value [v] other than [undefined], every
    generator of the pending list is resumed with [v], in the order of
    the list, from the store the returning handler left: the store after
    the call is the one these resumptions leave, the log gets one
    resumption for each, the result is [[true, v]] when none of them
    threw and what one of them threw otherwise.  In a whole call the
    generators resumed are exactly those that suspended with no payload,
    each once and each with [v], after the value is known, and the call
    returns [[true, v]] only if none of them threw.

    A resumption is one step here: this is about handlers that settle
    without awaiting once they are resumed. *)
Theorem pending_resumed_with_value :
  (∀ op args i (l : @layer World) rest att pend w t f g w1 k w2,
     layer_get l op = PFn f →
     f args w = (inl (CGen g), w1) →
     resume g VUndefined w1 = (Yield VUndefined k, w2) →
     walk op args i (l :: rest) att pend (w, t)
     = walk op args (S i) rest (att ++ [layer_display l]) (pend ++ [(i, k)])
         (w2, t ++ [EvCall i args None;
                    EvNext Drive i VUndefined (OYield VUndefined)]))
  ∧ (∀ op args i (l : @layer World) rest att pend w t f g w1 v w2 r w' t',
       layer_get l op = PFn f →
       f args w = (inl (CGen g), w1) →
       resume g VUndefined w1 = (Return v, w2) →
       v ≠ VUndefined →
       walk op args i (l :: rest) att pend (w, t) = (r, (w', t')) →
       let os := (fanout pend v w2).1 in
       w' = (fanout pend v w2).2
       ∧ t' = t ++ EvCall i args None :: EvNext Drive i VUndefined (OReturn v)
                :: resume_events pend.*1 v os
       ∧ (omap thrown os = [] → r = Normal (true, v))
       ∧ (omap thrown os ≠ [] → ∃ e, e ∈ omap thrown os ∧ r = Abrupt (Thrown e)))
  ∧ (∀ (layers : list (@layer World)) op args w r w' dt j v,
       run (operation layers op args) w = (r, (w', dt)) →
       (j, OReturn v) ∈ drives dt →
       v ≠ VUndefined →
       (resumes dt).*1 = (fun k => (k, v)) <$> awaiting dt
       ∧ NoDup (awaiting dt)
       ∧ (∃ pre post, dt = pre ++ EvNext Drive j VUndefined (OReturn v) :: post
                      ∧ resumes pre = [] ∧ awaiting post = []
                      ∧ calls post = [] ∧ drives post = [])
       ∧ (r = Normal (true, v) ↔ Forall (fun x => raised x = None) (resumes dt))).
Proof.
  split_and!.
  - intros op args i l rest att pend w t f g w1 k w2 Hget Hf Hg.
    assert (∀ r w' dt,
              Walk op args (S i) rest (att ++ [layer_display l]) (pend ++ [(i, k)])
                w2 r w' dt →
              walk op args i (l :: rest) att pend (w, t)
              = walk op args (S i) rest (att ++ [layer_display l]) (pend ++ [(i, k)])
                  (w2, t ++ [EvCall i args None;
                             EvNext Drive i VUndefined (OYield VUndefined)])) as Hstep.
    { intros r w' dt HW.
      rewrite (Walk_walk _ _ _ _ _ _ _ _ _ _ HW).
      rewrite (Walk_walk _ _ _ _ _ _ _ _ _ _
                 (Walk_awaits _ _ _ _ _ _ _ _ _ _ _ _ _ _ _ _ Hget Hf Hg HW)).
      by rewrite <- app_assoc. }
    destruct (walk_Walk op args rest (S i) (att ++ [layer_display l])
                (pend ++ [(i, k)]) w2 []) as (r & w' & dt & HW & _).
    by eapply Hstep.
  - intros op args i l rest att pend w t f g w1 v w2 r w' t' Hget Hf Hg Hv Hwalk os.
    destruct (fanout pend v w2) as [os' w3] eqn:Hfan. subst os. cbn [fst snd].
    rewrite (Walk_walk _ _ _ _ _ _ _ _ _ _
               (Walk_resolves _ _ _ _ _ _ _ _ _ _ _ _ _ _ _ Hget Hf Hg Hv Hfan))
      in Hwalk.
    simplify_eq. split_and!; [done..| |]; unfold resolved, first_thrown.
    + by intros ->.
    + destruct (omap thrown os') as [|e es]; [done|]. intros _. exists e.
      split; [by left|done].
  - intros layers op args w r w' dt j v HW%operation_Walk Hin Hv.
    pose proof (Walk_drives_NoDup _ _ _ _ _ _ _ _ _ _ HW) as Hnd.
    destruct (Walk_resolved _ _ _ _ _ _ _ _ _ _ _ _ HW Hin Hv)
      as (pre & os & -> & Hlen & Hres & Hcalls & ->).
    simpl in *. split_and!.
    + log_simpl. rewrite Hres, app_nil_r. simpl. by apply resumed_zip.
    + eapply sublist_NoDup; [exact Hnd|apply awaiting_sublist].
    + eexists pre, _. split_and!; [done..| | |]; by log_simpl.
    + log_simpl. rewrite Hres. simpl. unfold resolved, first_thrown.
      rewrite <- (raised_zip (awaiting pre) v os) by lia.
      set (rs := zip_with _ _ _). split.
      * destruct (omap raised rs) as [|e l] eqn:Hom; [|done]. intros _.
        apply Forall_forall. intros x Hx. destruct (raised x) as [e|] eqn:He; [|done].
        assert (e ∈ omap raised rs) as Hin' by (apply list_elem_of_omap; eauto).
        rewrite Hom in Hin'. by apply elem_of_nil in Hin'.
      * by intros ->%raised_none.
Qed.

(** ** One generator for each layer *)

Lemma Walk_drives_called op args i ls att pend w r w' dt j o :
  Walk op args i ls att pend w r w' dt →
  (j, o) ∈ drives dt → EvCall j args None ∈ dt.
Proof.
  induction 1; log_simpl; intros Hin; elem_cases Hin; auto;
    repeat first [by apply list_elem_of_here | apply list_elem_of_further]; auto.
Qed.

Lemma Walk_calls_NoDup op args i ls att pend w r w' dt :
  Walk op args i ls att pend w r w' dt → NoDup (calls dt).
Proof.
  induction 1; log_simpl; csimpl;
    try done; try apply NoDup_nil_2; try apply NoDup_singleton.
  all: apply NoDup_cons; split; [|done].
  all: match goal with H : Walk _ _ _ _ _ _ _ _ _ _ |- _ =>
         apply Walk_lower in H as [Hc _] end.
  all: intros Hin; rewrite Forall_forall in Hc; apply Hc in Hin; lia.
Qed.

Lemma elem_of_resumed (ks : list nat) v os k x o :
  (k, x, o) ∈ zip_with (fun k o => (k, v, o)) ks os → k ∈ ks ∧ x = v.
Proof.
  revert os. induction ks as [|k' ks IH]; intros [|o' os] Hin; csimpl in *;
    try by apply elem_of_nil in Hin.
  apply elem_of_cons in Hin as [?|Hin]; simplify_eq.
  - split; [by apply elem_of_cons; left|done].
  - apply IH in Hin as [? ?]. split; [by apply elem_of_cons; right|done].
Qed.

(** X6.  A generator is resumed only if it suspended with no payload at
    its first drive, only after a layer behind it returned a value, and
    only with that value. *)
Theorem resumed_only_with_resolved_value layers op args w r w' dt k x o :
  run (operation layers op args) w = (r, (w', dt)) →
  (k, x, o) ∈ resumes dt →
  k ∈ awaiting dt
  ∧ x ≠ VUndefined
  ∧ ∃ j, k < j ∧ (j, OReturn x) ∈ drives dt.
Proof.
  intros HW%operation_Walk Hin.
  destruct (Walk_shape _ _ _ _ _ _ _ _ _ _ HW)
    as [[Hnil _]|(pre & j & v & os & Hdt & Hv & Hlen & Hnil & _ & Hcalls & _)].
  { rewrite Hnil in Hin. by apply elem_of_nil in Hin. }
  assert ((j, OReturn v) ∈ drives dt) as Hj.
  { rewrite Hdt. log_simpl. apply elem_of_app; right. by apply elem_of_cons; left. }
  assert (k ∈ awaiting pre ∧ x = v) as [Hk ->].
  { revert Hin. rewrite Hdt. log_simpl. rewrite Hnil. simpl. apply elem_of_resumed. }
  assert (k ∈ awaiting dt) as Hk'.
  { rewrite Hdt. log_simpl. apply elem_of_app; by left. }
  split_and!; [done..|]. exists j. split; [|done].
  pose proof Hk' as Hd%awaiting_drives.
  assert (k ≠ j).
  { intros ->. by pose proof (drives_functional _ _ _ _ _ _ _ _ _ _ _ _ _ HW Hd Hj). }
  assert (k ≤ j); [|lia].
  assert (k ∈ calls dt) as Hc.
  { apply list_elem_of_omap. exists (EvCall k args None). split; [|done].
    by eapply Walk_drives_called. }
  revert Hc. rewrite Hdt. log_simpl. rewrite app_nil_r.
  rewrite Forall_forall in Hcalls. apply Hcalls.
Qed.

(** X7.  In one call every layer's handler is instantiated at most once,
    its generator is driven at most once and resumed at most once, and
    only the generator of a handler that was called is driven. *)
Theorem one_generator_per_layer layers op args w r w' dt :
  run (operation layers op args) w = (r, (w', dt)) →
  NoDup (calls dt)
  ∧ NoDup (drives dt).*1
  ∧ NoDup (resumes dt).*1.*1
  ∧ (∀ j o, (j, o) ∈ drives dt → EvCall j args None ∈ dt).
Proof.
  intros HW%operation_Walk. split_and!.
  - by eapply Walk_calls_NoDup.
  - by eapply Walk_drives_NoDup.
  - pose proof (Walk_drives_NoDup _ _ _ _ _ _ _ _ _ _ HW) as Hnd.
    destruct (Walk_shape _ _ _ _ _ _ _ _ _ _ HW)
      as [[Hnil _]|(pre & j & v & os & -> & Hv & Hlen & Hnil & _ & _ & _)].
    + rewrite Hnil. constructor.
    + revert Hnd. log_simpl. rewrite Hnil, fmap_app. simpl in *.
      intros [Hnd _]%NoDup_app. rewrite !resumed_zip by done.
      rewrite <- list_fmap_compose. simpl. rewrite list_fmap_id.
      eapply sublist_NoDup; [exact Hnd|apply awaiting_sublist].
  - intros j o. by eapply Walk_drives_called.
Qed.

(** ** A layer whose property is no generator function *)

(** X8.  A property that is no generator function ends the call where
    the walk meets it.  When [layer[op]] is truthy and not a function,
    the call of line 26 raises the runtime's TypeError: the call is
    rejected with it, the layer has not been called, and the store and
    the log are as they were.  When [layer[op]] is a function that
    returns something with no [next] to call, line 29 raises it: the
    call is rejected with it after that one call of the layer.  Either
    way no layer behind is looked at and the generators pending by then
    are not resumed.  (As everywhere here, [layer.toString()] of line 23
    is taken to return a string and do nothing else.) *)
Theorem not_a_generator_rejects :
  (∀ op args i (l : @layer World) rest att pend w t v,
     implements op l = true →
     layer_get l op = PData v →
     walk op args i (l :: rest) att pend (w, t) = (Abrupt RuntimeTypeError, (w, t)))
  ∧ (∀ op args i (l : @layer World) rest att pend w t f v w1,
       layer_get l op = PFn f →
       f args w = (inl (CVal v), w1) →
       walk op args i (l :: rest) att pend (w, t)
       = (Abrupt RuntimeTypeError, (w1, t ++ [EvCall i args None]))).
Proof.
  split.
  - intros op args i l rest att pend w t v Himpl Hget.
    rewrite (Walk_walk _ _ _ _ _ _ _ _ _ _
               (Walk_not_function _ _ i l rest att pend w v Himpl Hget)).
    by rewrite app_nil_r.
  - intros op args i l rest att pend w t f v w1 Hget Hf.
    by rewrite (Walk_walk _ _ _ _ _ _ _ _ _ _
                  (Walk_not_generator _ _ i l rest att pend w f v w1 Hget Hf)).
Qed.

(** ** The names of a longer list of layers *)

Lemma first_occurrences_app (a b : list string) :
  first_occurrences (a ++ b)
  = first_occurrences a ++ filter (fun k => k ∉ a) (first_occurrences b).
Proof.
  induction a as [|k a IH]; simpl.
  - induction (first_occurrences b) as [|k' l' IHl]; [done|].
    rewrite filter_cons_True by apply not_elem_of_nil. by f_equal.
  - f_equal. rewrite IH, filter_app. f_equal.
    rewrite list_filter_filter. apply list_filter_iff. intros x.
    rewrite not_elem_of_cons. tauto.
Qed.

(** X9.  The operations of [layers ++ more] are those of [layers], in
    their order, followed by the operations of [more] that [layers] does
    not have, in their order. *)
Theorem operation_names_append layers more :
  allOperations (layers ++ more)
  = allOperations layers
    ++ filter (fun k => k ∉ allOperations layers) (allOperations more).
Proof.
  unfold allOperations.
  rewrite !keys_fold, !Set_new_first_occurrences. simpl.
  rewrite fmap_app, concat_app, first_occurrences_app. f_equal.
  apply list_filter_iff. intros k. by rewrite elem_of_first_occurrences.
Qed.

(** ** The first layer that has the operation *)

Lemma Walk_skip_prefix op args skipped : ∀ i ls att pend w r w' dt,
  Forall (fun l => implements op l = false) skipped →
  Walk op args (i + length skipped) ls att pend w r w' dt →
  Walk op args i (skipped ++ ls) att pend w r w' dt.
Proof.
  induction skipped as [|l skipped IH]; intros i ls att pend w r w' dt Hall HW; simpl in *.
  - by rewrite Nat.add_0_r in HW.
  - apply Forall_cons_1 in Hall as [Hl Hall]. apply Walk_skip; [done|].
    apply IH; [done|]. by rewrite Nat.add_succ_comm.
Qed.

(** X10.  The first layer of the list whose [op] property is truthy
    decides the call whenever its generator does not decline: a returned
    value [v] gives [[true, v]], a yielded payload [e] gives
    [[false, e]], an exception rejects the call; the layers before it and
    behind it are not touched, and the store is the one that layer
    left. *)
Theorem first_implementing_layer_decides skipped l rest op args w f g w1 st w2 :
  (∀ l', l' ∈ skipped → implements op l' = false) →
  layer_get l op = PFn f →
  f args w = (inl (CGen g), w1) →
  resume g VUndefined w1 = (st, w2) →
  declined (observe st) = false →
  run (operation (skipped ++ l :: rest) op args) w
  = (match st with
     | Return v => Normal (true, v)
     | Yield e _ => Normal (false, e)
     | Throw e => Abrupt (Thrown e)
     end,
     (w2, [EvCall (length skipped) args None;
           EvNext Drive (length skipped) VUndefined (observe st)])).
Proof.
  intros Hskip Hget Hf Hg Hdecl. apply Walk_run.
  apply Walk_skip_prefix; [by apply Forall_forall|]. simpl.
  destruct st as [e k|v|e]; simpl in *.
  - eapply Walk_fails; eauto. by intros ->.
  - assert (v ≠ VUndefined) as Hv by (by intros ->).
    by apply (Walk_resolves op args _ l rest [] [] w f g w1 v w2 [] w2).
  - by eapply Walk_throws.
Qed.

End Further.

(** * The further properties on concrete layers *)

(** A property of every member of an explicit list, by computation. *)
Ltac each_member H :=
  repeat (apply elem_of_cons in H as [->|H]; [reflexivity|]);
  apply elem_of_nil in H; destruct H.

(** X1 on [cache; db], with [replica] added behind. *)
Lemma deeper_layers_irrelevant_witness :
  run (operation ([cache; db] ++ [replica]) "get" []) []
  = ((get [cache; db]).1, ((get [cache; db]).2.1, (get [cache; db]).2.2)).
Proof.
  apply (deeper_layers_irrelevant [cache; db] [replica] "get" [] []).
  - reflexivity.
  - discriminate.
Defined.

(** X2 on [writer; stub]: [get] is a key of [stub], and an operation of
    the composed object, but no layer can serve it. *)
Lemma no_layer_implements_witness :
  get [writer; stub]
  = (Abrupt (Error "operation was not handled by any configured layers: get (attempted layers: )"),
     ([], [])).
Proof.
  apply (no_layer_implements [writer; stub] "get" [] []).
  intros l Hl. each_member Hl.
Defined.

(** X3 on [cache; db], with [writer] put between the two. *)
Lemma skipped_layer_transparent_witness :
  get ([cache] ++ writer :: [db])
  = ((get [cache; db]).1,
     ((get [cache; db]).2.1, relabel (bump 1) <$> (get [cache; db]).2.2)).
Proof.
  apply (skipped_layer_transparent [cache] [db] writer "get" [] []).
  - reflexivity.
  - reflexivity.
Defined.

(** X4 on a call [get(7)] of [cache; db]. *)
Lemma handlers_get_call_arguments_witness :
  let dt := (run (operation [cache; db] "get" [VNum 7]) []).2.2 in
  (∀ j a th, EvCall j a th ∈ dt → a = [VNum 7])
  ∧ (∀ j x o, EvNext Drive j x o ∈ dt → x = VUndefined).
Proof.
  apply (handlers_get_call_arguments [cache; db] "get" [VNum 7] []
           (Normal (true, VStr "qix")) [VStr "qix"]).
  reflexivity.
Defined.

(** X5 on [cache; db]. *)
Lemma result_comes_from_a_layer_witness :
  let dt := (get [cache; db]).2.2 in
  (∃ j, (j, OReturn (VStr "qix")) ∈ drives dt)
  ∧ Forall (fun y => raised y = None) (resumes dt).
Proof.
  apply (result_comes_from_a_layer [cache; db] "get" [] [] true (VStr "qix")
           [VStr "qix"]).
  reflexivity.
Defined.

(** X6 on [cache; db]: [cache], at position 0, is resumed with ['qix']. *)
Lemma resumed_only_with_resolved_value_witness :
  let dt := (get [cache; db]).2.2 in
  0 ∈ awaiting dt
  ∧ VStr "qix" ≠ VUndefined
  ∧ ∃ j, 0 < j ∧ (j, OReturn (VStr "qix")) ∈ drives dt.
Proof.
  apply (resumed_only_with_resolved_value [cache; db] "get" [] []
           (get [cache; db]).1 [VStr "qix"] _ 0 (VStr "qix") (OReturn VUndefined)).
  - reflexivity.
  - in_list.
Defined.

(** X7 on [cache; quiet; db]. *)
Lemma pending_resumed_with_value_witness :
  walk "get" [] 0 [cache; db] [] [] ([], [])
  = walk "get" [] 1 [db] ["cache"]
      [(0, Gen (fun v w => (Return VUndefined, w ++ [v])))]
      ([], [EvCall 0 [] None; EvNext Drive 0 VUndefined (OYield VUndefined)])
  ∧ (get [cache; db]).2.1 = [VStr "qix"]
  ∧ (let r := (get [cache; quiet; cache; db]).1 in
     let dt := (get [cache; quiet; cache; db]).2.2 in
     (resumes dt).*1 = (fun k => (k, VStr "qix")) <$> awaiting dt
     ∧ NoDup (awaiting dt)
     ∧ (∃ pre post, dt = pre ++ EvNext Drive 3 VUndefined (OReturn (VStr "qix")) :: post
                    ∧ resumes pre = [] ∧ awaiting post = []
                    ∧ calls post = [] ∧ drives post = [])
     ∧ (r = Normal (true, VStr "qix")
        ↔ Forall (fun x => raised x = None) (resumes dt))).
Proof.
  destruct (@pending_resumed_with_value store) as (Hwait & Hresolve & Hcall).
  split_and!.
  - eapply (Hwait "get" [] 0 cache [db] [] [] [] []); reflexivity.
  - refine (proj1 (Hresolve "get" [] 1 db [] ["cache"]
                     [(0, Gen (fun v w => (Return VUndefined, w ++ [v])))]
                     [] [EvCall 0 [] None; EvNext Drive 0 VUndefined (OYield VUndefined)]
                     _ _ [] (VStr "qix") []
                     (get [cache; db]).1 (get [cache; db]).2.1 (get [cache; db]).2.2
                     _ _ _ _ _));
      [reflexivity|reflexivity|reflexivity|discriminate|reflexivity].
  - apply (Hcall [cache; quiet; cache; db] "get" [] [] _ [VStr "qix"; VStr "qix"]).
    + reflexivity.
    + in_list.
    + discriminate.
Defined.

Lemma one_generator_per_layer_witness :
  let dt := (get [cache; quiet; db]).2.2 in
  NoDup (calls dt)
  ∧ NoDup (drives dt).*1
  ∧ NoDup (resumes dt).*1.*1
  ∧ (∀ j o, (j, o) ∈ drives dt → EvCall j [] None ∈ dt).
Proof.
  apply (one_generator_per_layer [cache; quiet; db] "get" [] []
           (get [cache; quiet; db]).1 [VStr "qix"]).
  reflexivity.
Defined.

(** X8 on [cache; stale; db]: [stale] holds a string under [get]. *)
Lemma not_a_generator_rejects_witness :
  walk "get" [] 1 [stale; db] ["cache"]
    [(0, Gen (fun v w => (Return VUndefined, w ++ [v])))]
    ([], [EvCall 0 [] None; EvNext Drive 0 VUndefined (OYield VUndefined)])
  = (Abrupt RuntimeTypeError,
     ([], [EvCall 0 [] None; EvNext Drive 0 VUndefined (OYield VUndefined)]))
  ∧ walk "toString" [] 0 (TestJs.makeDB None) [] [] (TestJs.fresh, [])
    = (Abrupt RuntimeTypeError, (TestJs.fresh, [EvCall 0 [] None])).
Proof.
  split.
  - eapply (proj1 (@not_a_generator_rejects store)); reflexivity.
  - eapply (proj2 (@not_a_generator_rejects TestJs.memory)); reflexivity.
Defined.

(** X10 on [writer; db; replica]: [db] is the first layer with [get]. *)
Lemma first_implementing_layer_decides_witness :
  run (operation ([writer] ++ db :: [replica]) "get" []) []
  = (Normal (true, VStr "qix"),
     ([], [EvCall 1 [] None; EvNext Drive 1 VUndefined (OReturn (VStr "qix"))])).
Proof.
  eapply (first_implementing_layer_decides [writer] db [replica] "get" [] []
            _ _ [] (Return (VStr "qix")) []).
  - intros l Hl. each_member Hl.
  - reflexivity.
  - reflexivity.
  - reflexivity.
  - reflexivity.
Defined.

(** * The layers of [test.js] *)

Module TestJsFacts.

Import TestJs.

(** ** The memory cache: [store] and [load] *)

Lemma loads_S n k c : loads (S n) k c = (load k (loads n k c)).2.
Proof. done. Qed.

Lemma decr_above t : (- two53 < t)%Z → decr t = (t - 1)%Z.
Proof. unfold decr. intros H%Z.ltb_lt. by rewrite H. Qed.

Lemma decr_nonpos t : (t ≤ 0)%Z → (decr t ≤ 0)%Z ∧ decr t ≠ 0%Z.
Proof.
  unfold decr. intros H. destruct (Z.ltb_spec (- two53) t); [lia|].
  unfold two53 in *. lia.
Qed.

Lemma loads_counting ttl k v c n :
  (1 ≤ ttl)%Z → (Z.of_nat n < ttl)%Z →
  loads n k (store ttl k v c) !! k = Some (Rec v (ttl - Z.of_nat n)).
Proof.
  intros Hpos. induction n as [|n IH]; intros Hn.
  - unfold loads, store. simpl. rewrite lookup_insert_eq. do 2 f_equal. lia.
  - rewrite loads_S. unfold load at 1. rewrite IH by lia. simpl.
    rewrite decr_above by (unfold two53; lia).
    destruct (Z.eqb_spec (ttl - Z.of_nat n - 1) 0); [lia|].
    rewrite lookup_insert_eq. do 2 f_equal. lia.
Qed.

(** X11.  A value put in the memory cache with a time to live of [ttl]
    loads, [1 ≤ ttl ≤ 2^53], is served by exactly the next [ttl] loads of
    its key: each of them returns the value, the record is still there
    after fewer than [ttl] loads and is gone after the last one, and the
    load after that returns [undefined]. *)
Theorem load_serves_ttl_times ttl k v c n :
  (1 ≤ ttl ≤ two53)%Z →
  (Z.of_nat n < ttl)%Z →
  (load k (loads n k (store ttl k v c))).1 = v
  ∧ ((Z.of_nat n + 1 < ttl)%Z → is_Some (loads (S n) k (store ttl k v c) !! k))
  ∧ ((Z.of_nat n + 1 = ttl)%Z →
     loads (S n) k (store ttl k v c) !! k = None
     ∧ (load k (loads (S n) k (store ttl k v c))).1 = VUndefined).
Proof.
  intros [Hpos _] Hn.
  pose proof (loads_counting ttl k v c n Hpos Hn) as Hrec.
  split_and!.
  - unfold load. by rewrite Hrec.
  - intros Hlt. rewrite (loads_counting ttl k v c (S n)) by lia. by eexists.
  - intros Hlast. rewrite loads_S. unfold load at 1 3. rewrite Hrec. simpl.
    rewrite decr_above by (unfold two53; lia).
    destruct (Z.eqb_spec (ttl - Z.of_nat n - 1) 0); [|lia].
    split; [apply lookup_delete_eq|]. unfold load. by rewrite lookup_delete_eq.
Qed.

Lemma loads_forever ttl k v c n :
  (ttl ≤ 0)%Z →
  ∃ t, (t ≤ 0)%Z ∧ loads n k (store ttl k v c) !! k = Some (Rec v t).
Proof.
  intros Hneg. induction n as [|n (t & Ht & IH)].
  - exists ttl. split; [done|]. unfold loads, store. simpl. by rewrite lookup_insert_eq.
  - exists (decr t). rewrite loads_S. unfold load. rewrite IH. simpl.
    destruct (decr_nonpos t Ht) as [? Hnz].
    split; [done|]. apply Z.eqb_neq in Hnz. rewrite Hnz. by rewrite lookup_insert_eq.
Qed.

(** X12.  With a time to live of zero or less, [-2^53 ≤ ttl ≤ 0], a
    record never expires: the count goes down from there and never
    meets zero, so every load returns the value. *)
Theorem load_never_expires ttl k v c n :
  (- two53 ≤ ttl ≤ 0)%Z →
  (load k (loads n k (store ttl k v c))).1 = v
  ∧ is_Some (loads n k (store ttl k v c) !! k).
Proof.
  intros [_ Hneg]. destruct (loads_forever ttl k v c n Hneg) as (t & _ & Hrec).
  unfold load. rewrite Hrec. split; [done|by eexists].
Qed.

(** ** The operation [toString] *)

Lemma call_toString o args m :
  call o "toString" args m = (Abrupt RuntimeTypeError, (m, [EvCall 0 args None])).
Proof. done. Qed.

(** X13.  [toString] is a key of both layers, so it is an operation of
    the composed object; a call of it calls [toString] of the memory
    cache, which returns a string and no generator, and is rejected with
    the runtime's TypeError, whatever the arguments and the store, which
    it leaves as it was. *)
Theorem toString_operation_rejects ttl args m :
  "toString" ∈ allOperations (makeDB ttl)
  ∧ call ttl "toString" args m
    = (Abrupt RuntimeTypeError, (m, [EvCall 0 args None])).
Proof.
  split; [|apply call_toString].
  apply (bool_decide_unpack _). by vm_compute.
Qed.

(** ** Running a call of the two layers *)

Lemma makeDB_eq o : makeDB o = [makeMemoryCache (ttl_of o); makePersistentDB].
Proof. done. Qed.

Lemma tagged_eq tag x m :
  tagged tag x m
  = (VRef (S (length (mem_heap m))),
     Memory (mem_db m) (mem_cache m)
       (mem_heap m ++ cells tag x (length (mem_heap m)))).
Proof.
  unfold tagged, alloc, set_heap, cells. simpl. rewrite length_app, Nat.add_1_r.
  by rewrite <- app_assoc.
Qed.

(** A walk that ends at a layer with nothing pending. *)
Lemma Walk_resolves_alone {World} op args i (l : @layer World) rest att w f g w1 v w2 :
  layer_get l op = PFn f →
  f args w = (inl (CGen g), w1) →
  resume g VUndefined w1 = (Return v, w2) →
  v ≠ VUndefined →
  Walk op args i (l :: rest) att [] w (Normal (true, v)) w2
    [EvCall i args None; EvNext Drive i VUndefined (OReturn v)].
Proof. intros. by apply (Walk_resolves op args i l rest att [] w f g w1 v w2 [] w2). Qed.

(** A walk that ends at a layer with one generator pending, which
    returns when it is resumed. *)
Lemma Walk_resolves_one {World} op args i (l : @layer World) rest att j k w f g w1 v w2 x w3 :
  layer_get l op = PFn f →
  f args w = (inl (CGen g), w1) →
  resume g VUndefined w1 = (Return v, w2) →
  v ≠ VUndefined →
  resume k v w2 = (Return x, w3) →
  Walk op args i (l :: rest) att [(j, k)] w (Normal (true, v)) w3
    [EvCall i args None; EvNext Drive i VUndefined (OReturn v);
     EvNext Resume j v (OReturn x)].
Proof.
  intros Hget Hf Hg Hv Hk.
  apply (Walk_resolves op args i l rest att [(j, k)] w f g w1 v w2 [OReturn x] w3);
    try done.
  simpl. by rewrite Hk.
Qed.

(** *** [addUser] *)

Lemma call_addUser o args m :
  let d := mem_db m in
  let n := length (mem_heap m) in
  call o "addUser" args m
  = if truthy (param args) && is_string (param args) then
      (Normal (true, VRef (S n)),
       (Memory (Db (incr (userCount d)) (sessionCount d)
                  (<[pretty (userCount d) := User (VNum (userCount d)) (param args)]>
                     (users d))
                  (sessions d))
          (mem_cache m)
          (mem_heap m ++ cells "pdb" (VNum (userCount d)) n),
        [EvCall 1 args None; EvNext Drive 1 VUndefined (OReturn (VRef (S n)))]))
    else
      (Normal (false, VRef (S n)),
       (Memory d (mem_cache m)
          (mem_heap m
           ++ cells "pdb" (VStr "invalid username (expected non-blank string)") n),
        [EvCall 1 args None; EvNext Drive 1 VUndefined (OYield (VRef (S n)))])).
Proof.
  intros d n. unfold call. rewrite makeDB_eq.
  destruct (truthy (param args) && is_string (param args)) eqn:Hok;
    apply Walk_run; (apply Walk_skip; [reflexivity|]).
  - eapply Walk_resolves_alone; [reflexivity|reflexivity| |done].
    unfold pdb_addUser. cbn [resume]. unfold or_yield.
    rewrite Hok, tagged_eq. reflexivity.
  - eapply Walk_fails; [reflexivity|reflexivity| |done].
    unfold pdb_addUser. cbn [resume]. unfold or_yield.
    rewrite Hok, tagged_eq. reflexivity.
Qed.

(** *** Reading the heap *)

Lemma lookup_fresh_0 (h : list cell) a b : (h ++ [a; b]) !! length h = Some a.
Proof. by rewrite lookup_app_r, Nat.sub_diag by lia. Qed.

Lemma lookup_fresh_1 (h : list cell) a b : (h ++ [a; b]) !! S (length h) = Some b.
Proof.
  rewrite lookup_app_r by lia. by replace (S (length h) - length h) with 1 by lia.
Qed.

Lemma destructure_cells d c h items x :
  destructure (VRef (S (length h)))
    (Memory d c (h ++ [CArray items; CArray [VRef (length h); x]]))
  = Some (VRef (length h), x).
Proof. unfold destructure. simpl. by rewrite lookup_fresh_1. Qed.

Lemma push_cells d c h items x y :
  push (VRef (length h)) y (Memory d c (h ++ [CArray items; CArray [VRef (length h); x]]))
  = Some (Memory d c (h ++ [CArray (items ++ [y]); CArray [VRef (length h); x]])).
Proof.
  unfold push, set_heap. simpl. rewrite lookup_fresh_0. do 2 f_equal.
  rewrite insert_app_r_alt by lia. by rewrite Nat.sub_diag.
Qed.

(** The generator [fill] resumed with the result the persistent layer
    has just built. *)
Lemma fill_cells ttl entry d c h tag x k v :
  entry x = Some (k, v) →
  resume (fill ttl entry) (VRef (S (length h)))
    (Memory d c (h ++ cells tag x (length h)))
  = (Return VUndefined,
     Memory d (store ttl k v c)
       (h ++ [CArray [VStr tag; VStr "mc"]; CArray [VRef (length h); x]])).
Proof.
  intros Hentry. unfold fill, cells. cbn [resume]. rewrite destructure_cells, Hentry.
  unfold set_cache. cbn [mem_db mem_cache mem_heap]. by rewrite push_cells.
Qed.

(** *** Keys that are not symbols *)

Lemma in_object_primitive {A} (o : gmap string A) v :
  primitive v → in_object o v = has_property o (ToString v).
Proof. by destruct v. Qed.

Lemma property_of_primitive {A} (o : gmap string A) v :
  primitive v → property_of o v = get_property o (ToString v).
Proof. by destruct v. Qed.

Lemma delete_property_primitive {A} (o : gmap string A) v :
  primitive v → delete_property o v = delete (ToString v) o.
Proof. by destruct v. Qed.

Lemma template_primitive v : primitive v → template v = Some (key v).
Proof. by destruct v. Qed.

Lemma template_Some v k : template v = Some k → k = key v.
Proof. destruct v; by intros [= <-]. Qed.

Lemma delete_property_lookup {A} (o : gmap string A) v k a :
  delete_property o v !! k = Some a → o !! k = Some a.
Proof. destruct v; simpl; try done; by intros [_ ?]%lookup_delete_Some. Qed.

Lemma property_of_Own {A} (o : gmap string A) v a :
  property_of o v = Own a → ∃ k, o !! k = Some a.
Proof.
  destruct v; simpl; try done; unfold get_property;
    (destruct (o !! _) eqn:Hk; [intros [= <-]; by eauto|by destruct (bool_decide _)]).
Qed.

Lemma throw_TypeError_eq m :
  throw_TypeError m
  = (Throw (VRef (length (mem_heap m))),
     Memory (mem_db m) (mem_cache m) (mem_heap m ++ [CTypeError])).
Proof. done. Qed.

(** *** [deleteUser] *)

Lemma call_deleteUser o args m :
  let d := mem_db m in
  let n := length (mem_heap m) in
  call o "deleteUser" args m
  = if in_object (users d) (param args) then
      (Normal (true, VRef (S n)),
       (Memory (Db (userCount d) (sessionCount d)
                  (delete_property (users d) (param args)) (sessions d))
          (mem_cache m) (mem_heap m ++ cells "pdb" (VBool true) n),
        [EvCall 1 args None; EvNext Drive 1 VUndefined (OReturn (VRef (S n)))]))
    else
      (Normal (false, VRef (S n)),
       (Memory d (mem_cache m) (mem_heap m ++ cells "pdb" (VStr "no such user ID") n),
        [EvCall 1 args None; EvNext Drive 1 VUndefined (OYield (VRef (S n)))])).
Proof.
  intros d n. unfold call. rewrite makeDB_eq.
  destruct (in_object (users d) (param args)) eqn:Hok;
    apply Walk_run; (apply Walk_skip; [reflexivity|]).
  - eapply Walk_resolves_alone; [reflexivity|reflexivity| |done].
    unfold pdb_deleteUser. cbn [resume]. unfold or_yield.
    fold d. rewrite Hok, tagged_eq. reflexivity.
  - eapply Walk_fails; [reflexivity|reflexivity| |done].
    unfold pdb_deleteUser. cbn [resume]. unfold or_yield.
    fold d. rewrite Hok, tagged_eq. reflexivity.
Qed.

(** *** [destroySession] *)

Lemma call_destroySession o args m k :
  template (param args) = Some k →
  let d := mem_db m in
  let n := length (mem_heap m) in
  let c := delete k (mem_cache m) in
  call o "destroySession" args m
  = if in_object (sessions d) (param args) then
      (Normal (true, VRef (S n)),
       (Memory (Db (userCount d) (sessionCount d) (users d)
                  (delete_property (sessions d) (param args)))
          c (mem_heap m ++ cells "pdb" (VBool true) n),
        [EvCall 0 args None; EvNext Drive 0 VUndefined (OReturn VUndefined);
         EvCall 1 args None; EvNext Drive 1 VUndefined (OReturn (VRef (S n)))]))
    else
      (Normal (false, VRef (S n)),
       (Memory d c (mem_heap m ++ cells "pdb" (VStr "invalid token") n),
        [EvCall 0 args None; EvNext Drive 0 VUndefined (OReturn VUndefined);
         EvCall 1 args None; EvNext Drive 1 VUndefined (OYield (VRef (S n)))])).
Proof.
  intros Hk d n c. unfold call. rewrite makeDB_eq.
  assert (resume (mc_destroySession args) VUndefined m
          = (Return VUndefined, Memory d c (mem_heap m))) as Hmc
    by (unfold mc_destroySession; cbn [resume]; by rewrite Hk).
  destruct (in_object (sessions d) (param args)) eqn:Hok;
    apply Walk_run;
    (eapply Walk_opts_out; [reflexivity|reflexivity|exact Hmc|]).
  - eapply Walk_resolves_alone; [reflexivity|reflexivity| |done].
    unfold pdb_destroySession. cbn [resume]. unfold or_yield.
    cbn [mem_db]. rewrite Hok, tagged_eq. reflexivity.
  - eapply Walk_fails; [reflexivity|reflexivity| |done].
    unfold pdb_destroySession. cbn [resume]. unfold or_yield.
    cbn [mem_db]. rewrite Hok, tagged_eq. reflexivity.
Qed.

(** *** [createSession] *)

Lemma call_createSession o args m :
  let d := mem_db m in
  let n := length (mem_heap m) in
  let token := sessionCount d in
  call o "createSession" args m
  = if in_object (users d) (param args) then
      (Normal (true, VRef (S n)),
       (Memory (Db (userCount d) (incr token) (users d)
                  (<[pretty token := param args]> (sessions d)))
          (store (ttl_of o) (key (VNum token)) (param args) (mem_cache m))
          (mem_heap m ++ [CArray [VStr "pdb"; VStr "mc"]; CArray [VRef n; VNum token]]),
        [EvCall 0 args None; EvNext Drive 0 VUndefined (OYield VUndefined);
         EvCall 1 args None; EvNext Drive 1 VUndefined (OReturn (VRef (S n)));
         EvNext Resume 0 (VRef (S n)) (OReturn VUndefined)]))
    else
      (Normal (false, VRef (S n)),
       (Memory (Db (userCount d) (incr token) (users d) (sessions d))
          (mem_cache m) (mem_heap m ++ cells "pdb" (VStr "no such user ID") n),
        [EvCall 0 args None; EvNext Drive 0 VUndefined (OYield VUndefined);
         EvCall 1 args None; EvNext Drive 1 VUndefined (OYield (VRef (S n)))])).
Proof.
  intros d n token. unfold call. rewrite makeDB_eq.
  destruct (in_object (users d) (param args)) eqn:Hok;
    apply Walk_run;
    (eapply Walk_awaits; [reflexivity|reflexivity|reflexivity|]).
  - eapply Walk_resolves_one; [reflexivity|reflexivity| |done|].
    + unfold pdb_createSession. cbn [resume]. unfold or_yield.
      cbn [set_db set_sessionCount mem_db users]. fold d. rewrite Hok, tagged_eq.
      reflexivity.
    + cbn [mem_heap mem_db mem_cache set_db set_sessions set_sessionCount].
      by apply fill_cells.
  - eapply Walk_fails; [reflexivity|reflexivity| |done].
    unfold pdb_createSession. cbn [resume]. unfold or_yield.
    cbn [set_db set_sessionCount mem_db users]. fold d. rewrite Hok, tagged_eq.
    reflexivity.
Qed.

(** *** [getUID] *)

Lemma call_getUID o args m k :
  template (param args) = Some k →
  let d := mem_db m in
  let n := length (mem_heap m) in
  let value := (load k (mem_cache m)).1 in
  let c := (load k (mem_cache m)).2 in
  call o "getUID" args m
  = if negb (is_undefined value) then
      (Normal (true, VRef (S n)),
       (Memory d c (mem_heap m ++ cells "mc" value n),
        [EvCall 0 args None; EvNext Drive 0 VUndefined (OReturn (VRef (S n)))]))
    else
      match session_uid d (param args) with
      | Some uid =>
          (Normal (true, VRef (S n)),
           (Memory d (store (ttl_of o) k uid c)
              (mem_heap m ++ [CArray [VStr "pdb"; VStr "mc"]; CArray [VRef n; uid]]),
            [EvCall 0 args None; EvNext Drive 0 VUndefined (OYield VUndefined);
             EvCall 1 args None; EvNext Drive 1 VUndefined (OReturn (VRef (S n)));
             EvNext Resume 0 (VRef (S n)) (OReturn VUndefined)]))
      | None =>
          (Normal (false, VRef (S n)),
           (Memory d c (mem_heap m ++ cells "pdb" (VStr "invalid token") n),
            [EvCall 0 args None; EvNext Drive 0 VUndefined (OYield VUndefined);
             EvCall 1 args None; EvNext Drive 1 VUndefined (OYield (VRef (S n)))]))
      end.
Proof.
  intros Hk d n value c. unfold call. rewrite makeDB_eq.
  assert (load k (mem_cache m) = (value, c)) as Hload by apply surjective_pairing.
  assert (resume (mc_getUID (ttl_of o) args) VUndefined m
          = if negb (is_undefined value) then
              (Return (VRef (S n)), Memory d c (mem_heap m ++ cells "mc" value n))
            else
              (Yield VUndefined (fill (ttl_of o) (fun uid => Some (k, uid))),
               Memory d c (mem_heap m))) as Hmc.
  { unfold mc_getUID. cbn [resume]. rewrite Hk, Hload.
    destruct (negb (is_undefined value)); [|done].
    unfold set_cache. by rewrite tagged_eq. }
  destruct (negb (is_undefined value)) eqn:Hhit.
  { apply Walk_run.
    by eapply Walk_resolves_alone; [reflexivity|reflexivity|exact Hmc|]. }
  unfold session_uid.
  destruct (property_of (sessions d) (param args)) as [uid| |] eqn:Hget;
    apply Walk_run;
    (eapply Walk_awaits; [reflexivity|reflexivity|exact Hmc|]).
  - eapply Walk_resolves_one; [reflexivity|reflexivity| |done|].
    + unfold pdb_getUID. cbn [resume mem_db]. rewrite Hget, tagged_eq. reflexivity.
    + by apply fill_cells.
  - eapply Walk_resolves_one; [reflexivity|reflexivity| |done|].
    + unfold pdb_getUID. cbn [resume mem_db]. rewrite Hget, tagged_eq. reflexivity.
    + by apply fill_cells.
  - eapply Walk_fails; [reflexivity|reflexivity| |done].
    unfold pdb_getUID. cbn [resume mem_db]. rewrite Hget, tagged_eq. reflexivity.
Qed.

(** *** A symbol for a token *)

(** The cache cannot make its key: the handler throws at its first
    drive, and the persistent layer is not reached. *)
Lemma call_symbol_token o op args m :
  op = "getUID" ∨ op = "destroySession" →
  template (param args) = None →
  let n := length (mem_heap m) in
  call o op args m
  = (Abrupt (Thrown (VRef n)),
     (Memory (mem_db m) (mem_cache m) (mem_heap m ++ [CTypeError]),
      [EvCall 0 args None; EvNext Drive 0 VUndefined (OThrow (VRef n))])).
Proof.
  intros Hop Hk n. unfold call. rewrite makeDB_eq. apply Walk_run.
  destruct Hop as [-> | ->].
  - eapply Walk_throws; [reflexivity|reflexivity|].
    unfold mc_getUID. cbn [resume]. by rewrite Hk.
  - eapply Walk_throws; [reflexivity|reflexivity|].
    unfold mc_destroySession. cbn [resume]. by rewrite Hk.
Qed.

(** *** [getUsername] *)

Lemma call_getUsername o args m :
  let d := mem_db m in
  let n := length (mem_heap m) in
  let ans := username_of d (param args) in
  call o "getUsername" args m
  = (Normal (ans.1, VRef (S n)),
     (Memory d (mem_cache m) (mem_heap m ++ cells "pdb" ans.2 n),
      [EvCall 1 args None;
       EvNext Drive 1 VUndefined
         (if ans.1 then OReturn (VRef (S n)) else OYield (VRef (S n)))])).
Proof.
  intros d n ans. unfold call. rewrite makeDB_eq. apply Walk_run.
  apply Walk_skip; [reflexivity|].
  unfold ans, username_of, session_uid.
  destruct (property_of (sessions d) (param args)) as [uid| |] eqn:Hs;
    cbn [fst snd].
  - destruct (property_of (users d) uid) as [u| |] eqn:Hu; cbn [fst snd].
    + eapply Walk_resolves_alone; [reflexivity|reflexivity| |done].
      unfold pdb_getUsername. cbn [resume]. fold d. rewrite Hs, Hu, tagged_eq. reflexivity.
    + eapply Walk_resolves_alone; [reflexivity|reflexivity| |done].
      unfold pdb_getUsername. cbn [resume]. fold d. rewrite Hs, Hu, tagged_eq. reflexivity.
    + eapply Walk_fails; [reflexivity|reflexivity| |done].
      unfold pdb_getUsername. cbn [resume]. fold d. rewrite Hs, Hu, tagged_eq. reflexivity.
  - destruct (property_of (users d) VUndefined) as [u| |] eqn:Hu; cbn [fst snd].
    + eapply Walk_resolves_alone; [reflexivity|reflexivity| |done].
      unfold pdb_getUsername. cbn [resume]. fold d. rewrite Hs, Hu, tagged_eq. reflexivity.
    + eapply Walk_resolves_alone; [reflexivity|reflexivity| |done].
      unfold pdb_getUsername. cbn [resume]. fold d. rewrite Hs, Hu, tagged_eq. reflexivity.
    + eapply Walk_fails; [reflexivity|reflexivity| |done].
      unfold pdb_getUsername. cbn [resume]. fold d. rewrite Hs, Hu, tagged_eq. reflexivity.
  - eapply Walk_fails; [reflexivity|reflexivity| |done].
    unfold pdb_getUsername. cbn [resume]. fold d. rewrite Hs, tagged_eq. reflexivity.
Qed.

(** ** What the tests compare *)

Lemma reify_leaf fuel h x : (∀ a, x ≠ VRef a) → reify fuel h x = Leaf x.
Proof.
  intros Hx. destruct x as [| | | | |r|]; [by destruct fuel..| |by destruct fuel].
  by destruct (Hx r).
Qed.

Lemma reify_result (h : list cell) (tags : list string) x :
  (∀ a, x ≠ VRef a) →
  reify 2 (h ++ [CArray (VStr <$> tags); CArray [VRef (length h); x]])
    (VRef (S (length h)))
  = Node [Node (Leaf ∘ VStr <$> tags); Leaf x].
Proof.
  intros Hx. cbn [reify]. rewrite lookup_fresh_1. cbn [fmap list_fmap reify].
  rewrite lookup_fresh_0.
  assert ((fun v : value => match v with VUndefined | _ => Leaf v end) <$> (VStr <$> tags)
          = Leaf ∘ VStr <$> tags) as ->
    by (induction tags as [|t tags IH]; csimpl; [done|by rewrite IH]).
  destruct x as [| | | | |r|]; try done. by destruct (Hx r).
Qed.

Lemma outcome_result (ok : bool) d c (h : list cell) (tags : list string) x dt :
  (∀ a, x ≠ VRef a) →
  outcome (Normal (ok, VRef (S (length h))),
           (Memory d c (h ++ [CArray (VStr <$> tags); CArray [VRef (length h); x]]), dt))
  = (Some (ok, Node [Node (Leaf ∘ VStr <$> tags); Leaf x]),
     Memory d c (h ++ [CArray (VStr <$> tags); CArray [VRef (length h); x]])).
Proof. intros Hx. unfold outcome. cbn [fst snd mem_heap]. by rewrite reify_result. Qed.

(** ** The operations of the composed object *)

(** X14.  [addUser] accepts a name that is a string and not empty, and
    nothing else.  An accepted name gets the next user number, which is
    the count of users before the call: the call returns
    [[true, [['pdb'], uid]]] and the user is recorded under that number.
    A refused name gives [[false, [['pdb'], 'invalid username ...']]] and
    changes neither the database nor the cache.  The cache is not
    called. *)
Theorem addUser_validates o args m :
  let x := call o "addUser" args m in
  let uid := userCount (mem_db m) in
  calls x.2.2 = [1]
  ∧ mem_cache x.2.1 = mem_cache m
  ∧ match param args with
    | VStr (String _ _) =>
        (outcome x).1 = Some (true, Node [Node [Leaf (VStr "pdb")]; Leaf (VNum uid)])
        ∧ mem_db x.2.1
          = Db (incr uid) (sessionCount (mem_db m))
               (<[pretty uid := User (VNum uid) (param args)]> (users (mem_db m)))
               (sessions (mem_db m))
    | _ =>
        (outcome x).1
        = Some (false, Node [Node [Leaf (VStr "pdb")];
                             Leaf (VStr "invalid username (expected non-blank string)")])
        ∧ mem_db x.2.1 = mem_db m
    end.
Proof.
  intros x uid. unfold x. rewrite call_addUser. clear x.
  destruct (param args) as [| |b|z|[|a s]|r|y] eqn:Hp; cbn [truthy is_string];
    rewrite ?andb_false_r, ?(bool_decide_eq_false_2 (String a s = "")),
      ?(bool_decide_eq_true_2 ("" = "")) by done;
    cbn [negb andb]; unfold cells.
  all: split_and!; try done.
  all: try by rewrite (outcome_result _ _ _ _ ["pdb"]) by done.
Qed.

(** X15.  [createSession] takes the next session token whether it
    succeeds or not.  For a user the persistent layer knows, the call
    returns [[true, [['pdb', 'mc'], token]]], the session is recorded
    under the token and the cache is warmed with its [uid]; for any
    other argument it returns [[false, [['pdb'], 'no such user ID']]]
    and neither the sessions nor the cache change, but the token is
    spent.  Both layers are called, and the users are left alone. *)
Theorem createSession_takes_a_token o args m :
  primitive (param args) →
  let x := call o "createSession" args m in
  let d := mem_db m in
  let token := sessionCount d in
  calls x.2.2 = [0; 1]
  ∧ sessionCount (mem_db x.2.1) = incr token
  ∧ userCount (mem_db x.2.1) = userCount d
  ∧ users (mem_db x.2.1) = users d
  ∧ if has_property (users d) (ToString (param args)) then
      (outcome x).1
      = Some (true, Node [Node [Leaf (VStr "pdb"); Leaf (VStr "mc")]; Leaf (VNum token)])
      ∧ sessions (mem_db x.2.1) = <[pretty token := param args]> (sessions d)
      ∧ mem_cache x.2.1
        = store (ttl_of o) (key (VNum token)) (param args) (mem_cache m)
    else
      (outcome x).1
      = Some (false, Node [Node [Leaf (VStr "pdb")]; Leaf (VStr "no such user ID")])
      ∧ sessions (mem_db x.2.1) = sessions d
      ∧ mem_cache x.2.1 = mem_cache m.
Proof.
  intros Hp x d token. unfold x. rewrite call_createSession. clear x. fold d.
  rewrite in_object_primitive by done.
  destruct (has_property (users d) (ToString (param args))); unfold cells.
  - split_and!; try done.
    by rewrite (outcome_result _ _ _ _ ["pdb"; "mc"]) by done.
  - split_and!; try done.
    by rewrite (outcome_result _ _ _ _ ["pdb"]) by done.
Qed.

(** X16.  After [destroySession] on a token that is no object and no
    symbol the persistent layer holds no session under the token and
    the cache no record under its key, whether the call succeeds or
    not.  It returns [[true, [['pdb'], true]]] when
    [token in db.sessions] and [[false, [['pdb'], 'invalid token']]]
    otherwise.  The cache is called first and is never resumed, so the
    trace names the persistent layer only.  (On a symbol the call is
    rejected.) *)
Theorem destroySession_evicts o args m :
  primitive (param args) →
  let x := call o "destroySession" args m in
  let d := mem_db m in
  calls x.2.2 = [0; 1]
  ∧ resumes x.2.2 = []
  ∧ mem_cache x.2.1 = delete (key (param args)) (mem_cache m)
  ∧ sessions (mem_db x.2.1) !! ToString (param args) = None
  ∧ users (mem_db x.2.1) = users d
  ∧ (outcome x).1
    = Some (if has_property (sessions d) (ToString (param args))
            then (true, Node [Node [Leaf (VStr "pdb")]; Leaf (VBool true)])
            else (false, Node [Node [Leaf (VStr "pdb")]; Leaf (VStr "invalid token")])).
Proof.
  intros Hp x d. unfold x.
  rewrite (call_destroySession _ _ _ _ (template_primitive _ Hp)). clear x. fold d.
  rewrite in_object_primitive, delete_property_primitive by done.
  destruct (has_property (sessions d) (ToString (param args))) eqn:Hin; unfold cells.
  - split_and!; try done.
    + apply lookup_delete_eq.
    + by rewrite (outcome_result _ _ _ _ ["pdb"]) by done.
  - split_and!; try done.
    + unfold has_property in Hin. apply orb_false_iff in Hin as [Hin _].
      apply bool_decide_eq_false in Hin. cbn [mem_db].
      by destruct (sessions d !! ToString (param args)) eqn:E; [destruct Hin; eexists|].
    + by rewrite (outcome_result _ _ _ _ ["pdb"]) by done.
Qed.

(** ** What holds of every store a composed object can be in *)

Lemma key_inj a b : "token:uid:" +:+ a = "token:uid:" +:+ b → a = b.
Proof. intros H. by simplify_eq/=. Qed.

Lemma incr_le n : (n ≤ two53)%Z → (incr n ≤ two53)%Z.
Proof. unfold incr. destruct (Z.ltb_spec n two53); lia. Qed.

Lemma incr_past n k :
  (n ≤ two53)%Z → (k < n ∨ n = two53 ∨ k = n)%Z → (k < incr n ∨ incr n = two53)%Z.
Proof. unfold incr. destruct (Z.ltb_spec n two53); lia. Qed.

(** A record found after a load was there before it, with the same
    value. *)
Lemma load_lookup k c k' r :
  (load k c).2 !! k' = Some r → ∃ r', c !! k' = Some r' ∧ r_v r' = r_v r.
Proof.
  unfold load. destruct (c !! k) as [r0|] eqn:Hk; cbn [snd]; [|by eauto].
  destruct (decr (r_ttl r0) =? 0)%Z.
  - rewrite lookup_delete_Some. intros [_ ?]. by eauto.
  - destruct (decide (k = k')) as [<-|Hne].
    + rewrite lookup_insert_eq. intros [= <-]. by eauto.
    + rewrite lookup_insert_ne by done. by eauto.
Qed.

Lemma primitive_param args : Forall primitive args → primitive (param args).
Proof. by intros [|v rest Hv _]. Qed.

Lemma allOperations_makeDB o op :
  op ∈ allOperations (makeDB o) →
  op ∈ ["toString"; "createSession"; "destroySession"; "getUID"; "getUsername";
        "addUser"; "deleteUser"].
Proof. done. Qed.

Lemma consistent_fresh : consistent fresh.
Proof. unfold consistent, fresh, two53. cbn. split_and!; try done; lia. Qed.

Lemma consistent_addUser o args m :
  consistent m → consistent (call o "addUser" args m).2.1.
Proof.
  intros (Hu & Hs & Hus & Hss & Hc). rewrite call_addUser.
  destruct (truthy (param args) && is_string (param args)) eqn:Hok; [|done].
  unfold consistent. cbn [fst snd mem_db mem_cache userCount sessionCount users sessions].
  split_and!; try done.
  - by apply incr_le.
  - intros k u. destruct (decide (pretty (userCount (mem_db m)) = k)) as [<-|Hne].
    + rewrite lookup_insert_eq. intros [= <-]. eexists. split_and!; [done..| |].
      * cbn [u_username].
        destruct (param args) as [| |b|z|[|a s]|r|y]; cbn [is_string] in Hok;
          rewrite ?andb_false_r in Hok; try done; by eauto.
      * apply incr_past; [done|lia].
    + rewrite lookup_insert_ne by done. intros (n & -> & ? & ? & ?)%Hus.
      eexists. split_and!; [done..|]. apply incr_past; [done|lia].
Qed.

Lemma consistent_deleteUser o args m :
  primitive (param args) →
  consistent m → consistent (call o "deleteUser" args m).2.1.
Proof.
  intros Hp (Hu & Hs & Hus & Hss & Hc).
  rewrite call_deleteUser, in_object_primitive, delete_property_primitive by done.
  destruct (has_property _ _); [|done].
  unfold consistent. cbn [fst snd mem_db mem_cache userCount sessionCount users sessions].
  split_and!; try done.
  intros k u [_ ?]%lookup_delete_Some. by apply Hus.
Qed.

Lemma consistent_getUsername o args m :
  consistent m → consistent (call o "getUsername" args m).2.1.
Proof. intros H. by rewrite call_getUsername. Qed.

Lemma consistent_createSession o args m :
  primitive (param args) →
  consistent m → consistent (call o "createSession" args m).2.1.
Proof.
  intros Hp (Hu & Hs & Hus & Hss & Hc).
  rewrite call_createSession, in_object_primitive by done.
  destruct (has_property _ _);
    unfold consistent;
    cbn [fst snd mem_db mem_cache userCount sessionCount users sessions];
    (split_and!; [done|by apply incr_le|done|..]).
  - intros k v. destruct (decide (pretty (sessionCount (mem_db m)) = k)) as [<-|Hne].
    + rewrite lookup_insert_eq. intros [= <-]. split; [done|].
      eexists. split; [done|]. apply incr_past; [done|lia].
    + rewrite lookup_insert_ne by done. intros [? (n & -> & ?)]%Hss. split; [done|].
      eexists. split; [done|]. apply incr_past; [done|lia].
  - intros tk r. unfold store, key. cbn [ToString].
    destruct (decide (pretty (sessionCount (mem_db m)) = tk)) as [<-|Hne].
    + rewrite !lookup_insert_eq. by intros [= <-].
    + rewrite !lookup_insert_ne by (done || by intros ?%key_inj). apply Hc.
  - intros k v [? (n & -> & ?)]%Hss. split; [done|].
    eexists. split; [done|]. apply incr_past; [done|lia].
  - done.
Qed.

Lemma consistent_destroySession o args m :
  primitive (param args) →
  consistent m → consistent (call o "destroySession" args m).2.1.
Proof.
  intros Hp (Hu & Hs & Hus & Hss & Hc).
  rewrite (call_destroySession _ _ _ _ (template_primitive _ Hp)).
  rewrite in_object_primitive, delete_property_primitive by done.
  destruct (has_property _ _);
    unfold consistent;
    cbn [fst snd mem_db mem_cache userCount sessionCount users sessions];
    (split_and!; [done..| |]).
  - intros k v [_ ?]%lookup_delete_Some. by apply Hss.
  - intros tk r [Hne Hr]%lookup_delete_Some Hv. rewrite lookup_delete_ne.
    + by apply Hc.
    + intros <-. by destruct Hne.
  - done.
  - intros tk r [Hne Hr]%lookup_delete_Some Hv. by apply Hc.
Qed.

Lemma consistent_getUID o args m :
  primitive (param args) →
  consistent m → consistent (call o "getUID" args m).2.1.
Proof.
  intros Hp (Hu & Hs & Hus & Hss & Hc).
  rewrite (call_getUID _ _ _ _ (template_primitive _ Hp)).
  assert (∀ tk r, (load (key (param args)) (mem_cache m)).2 !! ("token:uid:" +:+ tk)
                  = Some r →
                  r_v r ≠ VUndefined → sessions (mem_db m) !! tk = Some (r_v r)) as Hl.
  { intros tk r (r' & Hr' & <-)%load_lookup Hv. by apply Hc. }
  destruct (negb (is_undefined _)); [done|].
  unfold session_uid. rewrite property_of_primitive by done. unfold get_property.
  destruct (sessions (mem_db m) !! ToString (param args)) as [uid|] eqn:Hget;
    [|destruct (bool_decide _)]; try done.
  - unfold consistent. cbn [fst snd mem_db mem_cache]. split_and!; try done.
    intros tk r. unfold store, key.
    destruct (decide (ToString (param args) = tk)) as [<-|Hne].
    + rewrite lookup_insert_eq. by intros [= <-].
    + rewrite lookup_insert_ne by (by intros ?%key_inj). apply Hl.
  - unfold consistent. cbn [fst snd mem_db mem_cache]. split_and!; try done.
    intros tk r. unfold store, key.
    destruct (decide (ToString (param args) = tk)) as [<-|Hne].
    + rewrite lookup_insert_eq. by intros [= <-].
    + rewrite lookup_insert_ne by (by intros ?%key_inj). apply Hl.
Qed.

Lemma reachable_consistent o m : reachable o m → consistent m.
Proof.
  induction 1 as [|op args m _ IH Hop Hargs]; [apply consistent_fresh|].
  apply allOperations_makeDB in Hop. apply primitive_param in Hargs.
  repeat (apply elem_of_cons in Hop as [->|Hop]).
  - by rewrite call_toString.
  - by apply consistent_createSession.
  - by apply consistent_destroySession.
  - by apply consistent_getUID.
  - by apply consistent_getUsername.
  - by apply consistent_addUser.
  - by apply consistent_deleteUser.
  - by apply elem_of_nil in Hop.
Qed.

Lemma primitive_leaf v : primitive v → ∀ a, v ≠ VRef a.
Proof. by destruct v. Qed.

(** X17.  The cache never changes what [getUID] answers, as long as
    the calls are made one after the other.  On every store the composed
    object can then be in, a call of [getUID] on a token that is no
    object and no symbol gives what the persistent layer holds for the
    token at that time, with the trace [['mc']] or [['pdb', 'mc']], or
    [[false, [['pdb'], 'invalid token']]] when it holds nothing; and it
    leaves the persistent layer as it was.  Calls that overlap in time
    are not covered. *)
Theorem getUID_answers_from_sessions o m args :
  reachable o m →
  primitive (param args) →
  let x := call o "getUID" args m in
  mem_db x.2.1 = mem_db m
  ∧ match session_uid (mem_db m) (param args) with
    | Some uid =>
        (outcome x).1 = Some (true, Node [Node [Leaf (VStr "mc")]; Leaf uid])
        ∨ (outcome x).1
          = Some (true, Node [Node [Leaf (VStr "pdb"); Leaf (VStr "mc")]; Leaf uid])
    | None =>
        (outcome x).1
        = Some (false, Node [Node [Leaf (VStr "pdb")]; Leaf (VStr "invalid token")])
    end.
Proof.
  intros (Hu & Hs & Hus & Hss & Hc)%reachable_consistent Hp x. unfold x. clear x.
  rewrite (call_getUID _ _ _ _ (template_primitive _ Hp)).
  unfold session_uid. rewrite property_of_primitive by done.
  destruct (negb (is_undefined (load (key (param args)) (mem_cache m)).1)) eqn:Hhit.
  - split; [done|].
    assert (sessions (mem_db m) !! ToString (param args)
            = Some (load (key (param args)) (mem_cache m)).1) as Hheld.
    { unfold load in *.
      destruct (mem_cache m !! key (param args)) as [r|] eqn:Hr; [|done].
      apply Hc; [done|]. cbn [fst] in Hhit. by destruct (r_v r). }
    unfold get_property. rewrite Hheld. left. unfold cells.
    rewrite (outcome_result _ _ _ _ ["mc"]); [done|].
    apply primitive_leaf. by apply Hss in Hheld as [? _].
  - unfold get_property.
    destruct (sessions (mem_db m) !! ToString (param args)) as [uid|] eqn:Hheld;
      [|destruct (bool_decide _)]; (split; [done|]); unfold cells.
    + right. rewrite (outcome_result _ _ _ _ ["pdb"; "mc"]); [done|].
      apply primitive_leaf. by apply Hss in Hheld as [? _].
    + right. by rewrite (outcome_result _ _ _ _ ["pdb"; "mc"]).
    + by rewrite (outcome_result _ _ _ _ ["pdb"]).
Qed.

(** ** A session from its creation on *)

Lemma loads_last ttl k v c n :
  (1 ≤ ttl ≤ two53)%Z → Z.of_nat n = ttl → loads n k (store ttl k v c) !! k = None.
Proof.
  intros [Hpos Hle] Hn. destruct n as [|n]; [lia|].
  rewrite loads_S. unfold load. rewrite (loads_counting ttl k v c n) by lia. simpl.
  rewrite decr_above by (unfold two53 in *; lia).
  destruct (Z.eqb_spec (ttl - Z.of_nat n - 1) 0); [|lia].
  apply lookup_delete_eq.
Qed.

Lemma getUIDs_S o token n m :
  getUIDs o token (S n) m = (call o "getUID" [token] (getUIDs o token n m)).2.1.
Proof. done. Qed.

(** While the record lasts, the calls of [getUID] are loads of the
    cache and nothing else. *)
Lemma getUIDs_loads o token v n m :
  (1 ≤ ttl_of o ≤ two53)%Z →
  v ≠ VUndefined →
  (Z.of_nat n ≤ ttl_of o)%Z →
  template token = Some (key token) →
  mem_cache m !! key token = Some (Rec v (ttl_of o)) →
  mem_db (getUIDs o token n m) = mem_db m
  ∧ mem_cache (getUIDs o token n m) = loads n (key token) (mem_cache m).
Proof.
  intros Httl Hv Hn Htpl Hrec.
  assert (mem_cache m = store (ttl_of o) (key token) v (mem_cache m)) as Hc.
  { unfold store. by rewrite insert_id. }
  induction n as [|n IH]; [done|].
  destruct IH as [IHd IHc]; [lia|].
  rewrite getUIDs_S, (call_getUID o [token] _ (key token) Htpl).
  change (param [token]) with token. rewrite IHc, loads_S.
  assert ((load (key token) (loads n (key token) (mem_cache m))).1 = v) as Hload.
  { rewrite Hc. unfold load. by rewrite loads_counting by lia. }
  rewrite Hload. by destruct v.
Qed.

(** X18.  A session is answered from the cache as many times as the
    time to live says, [1 ≤ ttl ≤ 2^53].  After [createSession] of a
    known user has returned a token, the next [ttl] calls of [getUID] on
    the token return [[true, [['mc'], uid]]]; the call after them finds
    the record gone, asks the persistent layer, returns
    [[true, [['pdb', 'mc'], uid]]] and puts the record back with the
    whole time to live. *)
Theorem getUID_cached_ttl_times o uid m n :
  (1 ≤ ttl_of o ≤ two53)%Z →
  primitive uid →
  uid ≠ VUndefined →
  has_property (users (mem_db m)) (ToString uid) = true →
  let token := VNum (sessionCount (mem_db m)) in
  let created := (call o "createSession" [uid] m).2.1 in
  let x := call o "getUID" [token] (getUIDs o token n created) in
  ((Z.of_nat n < ttl_of o)%Z →
   (outcome x).1 = Some (true, Node [Node [Leaf (VStr "mc")]; Leaf uid]))
  ∧ (Z.of_nat n = ttl_of o →
     (outcome x).1
     = Some (true, Node [Node [Leaf (VStr "pdb"); Leaf (VStr "mc")]; Leaf uid])
     ∧ mem_cache x.2.1 !! key token = Some (Rec uid (ttl_of o))).
Proof.
  intros Httl Hp Hv Hknown token created x.
  assert (mem_db created
          = Db (userCount (mem_db m)) (incr (sessionCount (mem_db m))) (users (mem_db m))
               (<[pretty (sessionCount (mem_db m)) := uid]> (sessions (mem_db m)))
          ∧ mem_cache created = store (ttl_of o) (key token) uid (mem_cache m))
    as [Hd Hc].
  { unfold created. rewrite call_createSession. change (param [uid]) with uid.
    by rewrite in_object_primitive, Hknown. }
  assert (template token = Some (key token)) as Htpl by done.
  assert (mem_cache created !! key token = Some (Rec uid (ttl_of o))) as Hrec.
  { rewrite Hc. unfold store. by rewrite lookup_insert_eq. }
  assert (∀ a, uid ≠ VRef a) as Hleaf by by destruct uid.
  split.
  - intros Hn.
    destruct (getUIDs_loads o token uid n created Httl Hv ltac:(lia) Htpl Hrec)
      as [Hgd Hgc].
    unfold x. rewrite (call_getUID o [token] _ (key token) Htpl).
    change (param [token]) with token. rewrite Hgc, Hc.
    assert ((load (key token)
               (loads n (key token) (store (ttl_of o) (key token) uid (mem_cache m)))).1
            = uid) as ->.
    { unfold load. by rewrite loads_counting by lia. }
    replace (negb (is_undefined uid)) with true by by destruct uid.
    unfold cells. by rewrite (outcome_result _ _ _ _ ["mc"]).
  - intros Hn.
    destruct (getUIDs_loads o token uid n created Httl Hv ltac:(lia) Htpl Hrec)
      as [Hgd Hgc].
    unfold x. rewrite (call_getUID o [token] _ (key token) Htpl).
    change (param [token]) with token. rewrite Hgc, Hc.
    assert (load (key token)
              (loads n (key token) (store (ttl_of o) (key token) uid (mem_cache m)))
            = (VUndefined,
               loads n (key token) (store (ttl_of o) (key token) uid (mem_cache m))))
      as ->.
    { unfold load. by rewrite loads_last. }
    cbn [fst snd is_undefined negb].
    unfold session_uid, property_of, get_property. rewrite Hgd, Hd.
    cbn [sessions ToString token]. rewrite lookup_insert_eq. split.
    + by rewrite (outcome_result _ _ _ _ ["pdb"; "mc"]).
    + cbn [fst snd mem_cache]. unfold store. by rewrite lookup_insert_eq.
Qed.

(** ** Users and their sessions *)

(** X19.  [deleteUser] leaves the sessions of the user behind.  After
    the user of a session is deleted, [getUID] still has the [uid] to
    give for the token, and [getUsername] answers
    [[false, [['pdb'], 'invalid user in session']]]. *)
Theorem deleteUser_leaves_sessions o uid token m :
  primitive uid →
  primitive token →
  sessions (mem_db m) !! ToString token = Some uid →
  is_Some (users (mem_db m) !! ToString uid) →
  ToString uid ∉ Object_prototype →
  let deleted := (call o "deleteUser" [uid] m).2.1 in
  session_uid (mem_db deleted) token = Some uid
  ∧ (outcome (call o "getUsername" [token] deleted)).1
    = Some (false,
            Node [Node [Leaf (VStr "pdb")]; Leaf (VStr "invalid user in session")]).
Proof.
  intros Hpu Hpt Hs Hu Hproto deleted.
  assert (mem_db deleted
          = Db (userCount (mem_db m)) (sessionCount (mem_db m))
               (delete (ToString uid) (users (mem_db m))) (sessions (mem_db m)))
    as Hd.
  { unfold deleted. rewrite call_deleteUser. change (param [uid]) with uid.
    rewrite in_object_primitive, delete_property_primitive by done.
    unfold has_property. by rewrite bool_decide_eq_true_2. }
  assert (session_uid (mem_db deleted) token = Some uid) as Hsu.
  { unfold session_uid. rewrite property_of_primitive by done. unfold get_property.
    by rewrite Hd; cbn [sessions]; rewrite Hs. }
  split; [done|].
  rewrite call_getUsername. change (param [token]) with token.
  unfold username_of. rewrite Hsu, property_of_primitive by done.
  unfold get_property. rewrite Hd. cbn [users].
  rewrite lookup_delete_eq, bool_decide_eq_false_2 by done. cbn [fst snd]. unfold cells.
  by rewrite (outcome_result _ _ _ _ ["pdb"]).
Qed.

(** X20.  Numbers are not handed out twice.  On a store the composed
    object can be in, with both counters below [2^53], an [addUser]
    replaces no user and a [createSession] replaces no session:
    whatever was recorded before the call is recorded after it. *)
Theorem numbers_not_reused o m args :
  reachable o m →
  primitive (param args) →
  (userCount (mem_db m) < two53)%Z →
  (sessionCount (mem_db m) < two53)%Z →
  (∀ k u, users (mem_db m) !! k = Some u →
          users (mem_db (call o "addUser" args m).2.1) !! k = Some u)
  ∧ (∀ k v, sessions (mem_db m) !! k = Some v →
            sessions (mem_db (call o "createSession" args m).2.1) !! k = Some v).
Proof.
  intros (_ & _ & Hus & Hss & _)%reachable_consistent _ Hu Hs. split.
  - intros k u Hk. rewrite call_addUser.
    destruct (truthy (param args) && is_string (param args)); [|done].
    cbn [fst snd mem_db users]. rewrite lookup_insert_ne; [done|].
    intros <-. apply Hus in Hk as (n & Hn%(inj pretty) & _ & _ & ?). lia.
  - intros k v Hk. rewrite call_createSession.
    destruct (in_object _ _); [|done].
    cbn [fst snd mem_db sessions]. rewrite lookup_insert_ne; [done|].
    intros <-. apply Hss in Hk as (_ & n & Hn%(inj pretty) & ?). lia.
Qed.

(** X21.  [getUsername] is answered by the persistent layer alone: the
    cache is not called and nothing but the heap of results changes.
    On a store the composed object can be in, the answer is one of the
    two errors, a name given to [addUser] (a string that is not empty),
    or [undefined]. *)
Theorem getUsername_reads_persistent_layer o m args :
  reachable o m →
  primitive (param args) →
  let x := call o "getUsername" args m in
  let answer := username_of (mem_db m) (param args) in
  calls x.2.2 = [1]
  ∧ mem_db x.2.1 = mem_db m
  ∧ mem_cache x.2.1 = mem_cache m
  ∧ (outcome x).1 = Some (answer.1, Node [Node [Leaf (VStr "pdb")]; Leaf answer.2])
  ∧ (answer = (false, VStr "invalid token")
     ∨ answer = (false, VStr "invalid user in session")
     ∨ answer = (true, VUndefined)
     ∨ ∃ a s, answer = (true, VStr (String a s))).
Proof.
  intros (_ & _ & Hus & _ & _)%reachable_consistent _ x answer.
  assert (answer = (false, VStr "invalid token")
          ∨ answer = (false, VStr "invalid user in session")
          ∨ answer = (true, VUndefined)
          ∨ ∃ a s, answer = (true, VStr (String a s))) as Hans.
  { unfold answer, username_of.
    destruct (session_uid (mem_db m) (param args)) as [uid|]; [|by left].
    destruct (property_of (users (mem_db m)) uid) as [u| |] eqn:Hu; [|by eauto..].
    apply property_of_Own in Hu as [k Hu].
    apply Hus in Hu as (_ & _ & _ & (a & s & ->) & _). by eauto 6. }
  unfold x. rewrite call_getUsername. fold answer. split_and!; try done.
  unfold cells. rewrite (outcome_result _ _ _ _ ["pdb"]); [done|].
  by destruct Hans as [->|[->|[->|(a & s & ->)]]].
Qed.

(** X22.  [createSession] takes the name of a property every object
    inherits for a user.  With a store that has no user of that name,
    [createSession('toString')], say, returns a token, [getUID] of the
    token gives the name back and [getUsername] of it answers
    [[true, [['pdb'], undefined]]]. *)
Theorem inherited_name_passes_for_user o name m :
  name ∈ Object_prototype →
  users (mem_db m) !! name = None →
  let token := VNum (sessionCount (mem_db m)) in
  let x := call o "createSession" [VStr name] m in
  (outcome x).1
  = Some (true, Node [Node [Leaf (VStr "pdb"); Leaf (VStr "mc")]; Leaf token])
  ∧ session_uid (mem_db x.2.1) token = Some (VStr name)
  ∧ (outcome (call o "getUsername" [token] x.2.1)).1
    = Some (true, Node [Node [Leaf (VStr "pdb")]; Leaf VUndefined]).
Proof.
  intros Hin Hnone token x.
  assert (has_property (users (mem_db m)) name = true) as Hhas.
  { unfold has_property. rewrite (bool_decide_eq_true_2 (name ∈ _)) by done.
    apply orb_true_r. }
  assert (x = (Normal (true, VRef (S (length (mem_heap m)))),
               (Memory (Db (userCount (mem_db m)) (incr (sessionCount (mem_db m)))
                          (users (mem_db m))
                          (<[pretty (sessionCount (mem_db m)) := VStr name]>
                             (sessions (mem_db m))))
                  (store (ttl_of o) (key token) (VStr name) (mem_cache m))
                  (mem_heap m ++ [CArray [VStr "pdb"; VStr "mc"];
                                  CArray [VRef (length (mem_heap m)); token]]),
                [EvCall 0 [VStr name] None; EvNext Drive 0 VUndefined (OYield VUndefined);
                 EvCall 1 [VStr name] None;
                 EvNext Drive 1 VUndefined (OReturn (VRef (S (length (mem_heap m)))));
                 EvNext Resume 0 (VRef (S (length (mem_heap m)))) (OReturn VUndefined)])))
    as Hx.
  { unfold x. rewrite call_createSession. change (param [VStr name]) with (VStr name).
    cbn [in_object ToString]. by rewrite Hhas. }
  clearbody x. subst x. cbn [fst snd].
  match goal with
  | |- context [session_uid ?d token] =>
      assert (session_uid d token = Some (VStr name)) as Hsu
  end.
  { unfold session_uid, property_of, get_property.
    cbn [mem_db sessions ToString token]. by rewrite lookup_insert_eq. }
  split_and!; [|done|].
  - by rewrite (outcome_result _ _ _ _ ["pdb"; "mc"]).
  - rewrite call_getUsername. change (param [token]) with token.
    unfold username_of. rewrite Hsu.
    unfold property_of, get_property. cbn [mem_db mem_cache mem_heap users ToString].
    rewrite Hnone, (bool_decide_eq_true_2 (name ∈ _)) by done. cbn [fst snd].
    unfold cells. by rewrite (outcome_result _ _ _ _ ["pdb"]).
Qed.

(** ** What no call does *)

(** X23.  No operation but [toString] rejects on an argument of the
    kinds above, and no call touches a result handed out before.  The
    same holds of [createSession], [getUsername], [addUser] and
    [deleteUser] on a symbol.  The call returns a pair [[ok, result]]
    whose result is an array made by the call, and the arrays that were
    there before the call are there after it, unchanged. *)
Theorem operations_never_reject o op args m :
  op ∈ allOperations (makeDB o) →
  op ≠ "toString" →
  primitive (param args)
  ∨ (∃ d, param args = VSym d) ∧ op ≠ "getUID" ∧ op ≠ "destroySession" →
  let x := call o op args m in
  ∃ ok a, x.1 = Normal (ok, VRef a)
          ∧ length (mem_heap m) ≤ a < length (mem_heap x.2.1)
          ∧ mem_heap m `prefix_of` mem_heap x.2.1.
Proof.
  intros Hop%allOperations_makeDB Hne Harg x. unfold x. clear x.
  repeat (apply elem_of_cons in Hop as [->|Hop]); [done|..|by apply elem_of_nil in Hop].
  - rewrite call_createSession. destruct (in_object _ _);
      (do 2 eexists; split_and!; [done|..|by apply prefix_app_r]);
      cbn [fst snd mem_heap]; rewrite ?length_app; simpl; lia.
  - destruct Harg as [Hp|(_ & _ & ?)]; [|done].
    rewrite (call_destroySession _ _ _ _ (template_primitive _ Hp)).
    destruct (in_object _ _);
      (do 2 eexists; split_and!; [done|..|by apply prefix_app_r]);
      cbn [fst snd mem_heap]; rewrite ?length_app; simpl; lia.
  - destruct Harg as [Hp|(_ & ? & _)]; [|done].
    rewrite (call_getUID _ _ _ _ (template_primitive _ Hp)).
    destruct (negb _); [|destruct (session_uid _ _)];
      (do 2 eexists; split_and!; [done|..|by apply prefix_app_r]);
      cbn [fst snd mem_heap]; rewrite ?length_app; simpl; lia.
  - rewrite call_getUsername.
    (do 2 eexists; split_and!; [done|..|by apply prefix_app_r]);
      cbn [fst snd mem_heap]; rewrite ?length_app; simpl; lia.
  - rewrite call_addUser. destruct (_ && _);
      (do 2 eexists; split_and!; [done|..|by apply prefix_app_r]);
      cbn [fst snd mem_heap]; rewrite ?length_app; simpl; lia.
  - rewrite call_deleteUser. destruct (in_object _ _);
      (do 2 eexists; split_and!; [done|..|by apply prefix_app_r]);
      cbn [fst snd mem_heap]; rewrite ?length_app; simpl; lia.
Qed.

(** X26.  [getUID] and [destroySession] reject on a symbol.  The cache
    builds its key with a template literal, which throws a TypeError on
    a symbol: the call is rejected with that TypeError, the persistent
    layer is not called, and neither the database nor the cache
    changes; a session named by the symbol, if there could be one,
    would not be destroyed. *)
Theorem symbol_token_rejects o op args m d :
  op = "getUID" ∨ op = "destroySession" →
  param args = VSym d →
  let x := call o op args m in
  let n := length (mem_heap m) in
  x.1 = Abrupt (Thrown (VRef n))
  ∧ mem_heap x.2.1 !! n = Some CTypeError
  ∧ mem_db x.2.1 = mem_db m
  ∧ mem_cache x.2.1 = mem_cache m
  ∧ calls x.2.2 = [0].
Proof.
  intros Hop Hsym x n. unfold x.
  rewrite (call_symbol_token _ _ _ _ Hop) by by rewrite Hsym.
  split_and!; try done. cbn [fst snd mem_heap].
  by rewrite lookup_app_r, Nat.sub_diag by lia.
Qed.

(** ** The statements above on the stores of the tests *)

Lemma reachable_logged_in : reachable (Some 2%Z) logged_in.
Proof.
  apply reachable_call; [apply reachable_call; [apply reachable_fresh|..]|..];
    try (apply (bool_decide_unpack _); by vm_compute);
    by repeat constructor.
Qed.

Lemma load_serves_ttl_times_witness :
  (load "k" (loads 1 "k" (store 2 "k" (VNum 7) ∅))).1 = VNum 7
  ∧ ((Z.of_nat 1 + 1 < 2)%Z → is_Some (loads 2 "k" (store 2 "k" (VNum 7) ∅) !! "k"))
  ∧ ((Z.of_nat 1 + 1 = 2)%Z →
     loads 2 "k" (store 2 "k" (VNum 7) ∅) !! "k" = None
     ∧ (load "k" (loads 2 "k" (store 2 "k" (VNum 7) ∅))).1 = VUndefined).
Proof.
  apply (load_serves_ttl_times 2 "k" (VNum 7) ∅ 1); [unfold two53|]; lia.
Defined.

Lemma load_never_expires_witness :
  (load "k" (loads 3 "k" (store 0 "k" (VNum 7) ∅))).1 = VNum 7
  ∧ is_Some (loads 3 "k" (store 0 "k" (VNum 7) ∅) !! "k").
Proof.
  apply (load_never_expires 0 "k" (VNum 7) ∅ 3). unfold two53. lia.
Defined.

Lemma createSession_takes_a_token_witness :
  let x := call (Some 2%Z) "createSession" [VNum 0] registered in
  calls x.2.2 = [0; 1]
  ∧ sessionCount (mem_db x.2.1) = 1%Z
  ∧ userCount (mem_db x.2.1) = 1%Z
  ∧ users (mem_db x.2.1) = users (mem_db registered)
  ∧ (outcome x).1
    = Some (true, Node [Node [Leaf (VStr "pdb"); Leaf (VStr "mc")]; Leaf (VNum 0)])
  ∧ sessions (mem_db x.2.1) = <["0" := VNum 0]> ∅
  ∧ mem_cache x.2.1 = store 2 "token:uid:0" (VNum 0) ∅.
Proof.
  apply (createSession_takes_a_token (Some 2%Z) [VNum 0] registered). by vm_compute.
Defined.

Lemma destroySession_evicts_witness :
  let x := call (Some 2%Z) "destroySession" [VNum 0] logged_in in
  calls x.2.2 = [0; 1]
  ∧ resumes x.2.2 = []
  ∧ mem_cache x.2.1 = delete "token:uid:0" (mem_cache logged_in)
  ∧ sessions (mem_db x.2.1) !! "0" = None
  ∧ users (mem_db x.2.1) = users (mem_db logged_in)
  ∧ (outcome x).1 = Some (true, Node [Node [Leaf (VStr "pdb")]; Leaf (VBool true)]).
Proof.
  apply (destroySession_evicts (Some 2%Z) [VNum 0] logged_in). by vm_compute.
Defined.

Lemma getUID_answers_from_sessions_witness :
  let x := call (Some 2%Z) "getUID" [VNum 0] logged_in in
  mem_db x.2.1 = mem_db logged_in
  ∧ ((outcome x).1 = Some (true, Node [Node [Leaf (VStr "mc")]; Leaf (VNum 0)])
     ∨ (outcome x).1
       = Some (true, Node [Node [Leaf (VStr "pdb"); Leaf (VStr "mc")]; Leaf (VNum 0)])).
Proof.
  apply (getUID_answers_from_sessions (Some 2%Z) logged_in [VNum 0]).
  - apply reachable_logged_in.
  - by vm_compute.
Defined.

Lemma getUID_cached_ttl_times_witness :
  let x := call (Some 2%Z) "getUID" [VNum 0]
             (getUIDs (Some 2%Z) (VNum 0) 2 logged_in) in
  ((Z.of_nat 2 < 2)%Z →
   (outcome x).1 = Some (true, Node [Node [Leaf (VStr "mc")]; Leaf (VNum 0)]))
  ∧ (Z.of_nat 2 = 2%Z →
     (outcome x).1
     = Some (true, Node [Node [Leaf (VStr "pdb"); Leaf (VStr "mc")]; Leaf (VNum 0)])
     ∧ mem_cache x.2.1 !! "token:uid:0" = Some (Rec (VNum 0) 2)).
Proof.
  apply (getUID_cached_ttl_times (Some 2%Z) (VNum 0) registered 2).
  - unfold two53. simpl. lia.
  - by vm_compute.
  - discriminate.
  - reflexivity.
Defined.

Lemma deleteUser_leaves_sessions_witness :
  let deleted := (call (Some 2%Z) "deleteUser" [VNum 0] logged_in).2.1 in
  session_uid (mem_db deleted) (VNum 0) = Some (VNum 0)
  ∧ (outcome (call (Some 2%Z) "getUsername" [VNum 0] deleted)).1
    = Some (false,
            Node [Node [Leaf (VStr "pdb")]; Leaf (VStr "invalid user in session")]).
Proof.
  apply (deleteUser_leaves_sessions (Some 2%Z) (VNum 0) (VNum 0) logged_in).
  - by vm_compute.
  - by vm_compute.
  - reflexivity.
  - eexists. reflexivity.
  - apply (bool_decide_unpack _). vm_compute. by vm_compute.
Defined.

Lemma numbers_not_reused_witness :
  (∀ k u, users (mem_db logged_in) !! k = Some u →
          users (mem_db (call (Some 2%Z) "addUser" [VStr "qux"] logged_in).2.1) !! k
          = Some u)
  ∧ (∀ k v, sessions (mem_db logged_in) !! k = Some v →
            sessions (mem_db (call (Some 2%Z) "createSession" [VStr "qux"] logged_in).2.1)
              !! k = Some v).
Proof.
  apply (numbers_not_reused (Some 2%Z) logged_in [VStr "qux"]).
  - apply reachable_logged_in.
  - by vm_compute.
  - reflexivity.
  - reflexivity.
Defined.

Lemma getUsername_reads_persistent_layer_witness :
  let x := call (Some 2%Z) "getUsername" [VNum 0] logged_in in
  let answer := (true, VStr "qix") in
  calls x.2.2 = [1]
  ∧ mem_db x.2.1 = mem_db logged_in
  ∧ mem_cache x.2.1 = mem_cache logged_in
  ∧ (outcome x).1 = Some (answer.1, Node [Node [Leaf (VStr "pdb")]; Leaf answer.2])
  ∧ (answer = (false, VStr "invalid token")
     ∨ answer = (false, VStr "invalid user in session")
     ∨ answer = (true, VUndefined)
     ∨ ∃ a s, answer = (true, VStr (String a s))).
Proof.
  apply (getUsername_reads_persistent_layer (Some 2%Z) logged_in [VNum 0]).
  - apply reachable_logged_in.
  - by vm_compute.
Defined.

Lemma inherited_name_passes_for_user_witness :
  let x := call None "createSession" [VStr "toString"] fresh in
  (outcome x).1
  = Some (true, Node [Node [Leaf (VStr "pdb"); Leaf (VStr "mc")]; Leaf (VNum 0)])
  ∧ session_uid (mem_db x.2.1) (VNum 0) = Some (VStr "toString")
  ∧ (outcome (call None "getUsername" [VNum 0] x.2.1)).1
    = Some (true, Node [Node [Leaf (VStr "pdb")]; Leaf VUndefined]).
Proof.
  apply (inherited_name_passes_for_user None "toString" fresh).
  - apply (bool_decide_unpack _). vm_compute. exact I.
  - reflexivity.
Defined.

Lemma operations_never_reject_witness :
  let x := call (Some 2%Z) "getUID" [VNum 0] logged_in in
  ∃ ok a, x.1 = Normal (ok, VRef a)
          ∧ length (mem_heap logged_in) ≤ a < length (mem_heap x.2.1)
          ∧ mem_heap logged_in `prefix_of` mem_heap x.2.1.
Proof.
  apply (operations_never_reject (Some 2%Z) "getUID" [VNum 0] logged_in).
  - apply (bool_decide_unpack _). vm_compute. exact I.
  - discriminate.
  - left. by vm_compute.
Defined.

Lemma symbol_token_rejects_witness :
  let x := call (Some 2%Z) "destroySession" [VSym "token"] logged_in in
  let n := length (mem_heap logged_in) in
  x.1 = Abrupt (Thrown (VRef n))
  ∧ mem_heap x.2.1 !! n = Some CTypeError
  ∧ mem_db x.2.1 = mem_db logged_in
  ∧ mem_cache x.2.1 = mem_cache logged_in
  ∧ calls x.2.2 = [0].
Proof.
  apply (symbol_token_rejects (Some 2%Z) "destroySession" [VSym "token"] logged_in "token").
  - by right.
  - reflexivity.
Defined.

End TestJsFacts.
